(** * butterfly-ts: a shallow embedding of the client and its utilities

    The development follows the three source modules that carry logic:
    - [utils.ts]  : [getMediaUrl], [getRelated], [getCategoryChildrenIds];
    - [client.ts] : [Client] (constructor) and [Client.get];
    - [errors.ts] : the three error classes raised by [Client.get].

    Conventions of the embedding.
    - A JavaScript string is a [string]; only concatenation, [startsWith],
      [replace] with a string pattern and one anchored regular expression are
      used by the code, and they are modelled on the characters themselves.
    - A JavaScript number is a [Z]: identifiers, pixel widths and HTTP status
      codes are integers, and an integer is printed by a template literal in
      decimal notation.  [getMediaUrl], which only prints its numbers, is
      also embedded over an arbitrary type of numbers ([AnyNumber]).
    - [undefined]/[null] in an optional position is [None].
    - A [throw] is a value of a result type; effects of [Client.get] (the
      network call, the observation callback, the body read) are recorded in
      an explicit trace, in the order in which the code performs them. *)

From Stdlib Require Import ZArith List Bool Lia.
From Stdlib Require Import Strings.String Strings.Ascii Numbers.DecimalString.
From Stdlib Require Import Relations.Relation_Operators Relations.Operators_Properties.
Import ListNotations.

Set Warnings "-register-all".

Open Scope string_scope.
Open Scope Z_scope.

(* ================================================================== *)
(** * JavaScript runtime helpers *)

Module Js.

(** Template-literal rendering of a number value that is an integer below
    [10^21] in magnitude: the decimal digits, with a leading minus sign for
    a negative one.  Identifiers and status codes are such numbers; from
    [10^21] on the language prints an exponent, which this function does
    not, and a number with a fraction has no counterpart in [Z]. *)
Definition string_of_number (n : Z) : string :=
  NilZero.string_of_int (Z.to_int n).

(** A resource identifier is [string | number] in [types.ts]. *)
Inductive Id : Type :=
| IdNum (n : Z)
| IdStr (s : string).

(** Strict equality [===] on identifiers: never true across types. *)
Definition Id_eqb (a b : Id) : bool :=
  match a, b with
  | IdNum x, IdNum y => Z.eqb x y
  | IdStr x, IdStr y => String.eqb x y
  | _, _ => false
  end.

Definition string_of_Id (i : Id) : string :=
  match i with
  | IdNum n => string_of_number n
  | IdStr s => s
  end.

(** Truthiness of a [string | number]: [0] and the empty string are falsy. *)
Definition Id_truthy (i : Id) : bool :=
  match i with
  | IdNum n => negb (Z.eqb n 0)
  | IdStr s => negb (String.eqb s "")
  end.

Definition string_truthy (s : string) : bool := negb (String.eqb s "").

(** [s.startsWith(p)] *)
Definition startsWith (s p : string) : bool := String.prefix p s.

(** Drop the first [n] characters. *)
Fixpoint drop (n : nat) (s : string) : string :=
  match n, s with
  | O, _ => s
  | S n', String _ s' => drop n' s'
  | S _, EmptyString => EmptyString
  end.

(** [s.replace(pat, rep)] with a string pattern: only the first occurrence
    of [pat] is replaced ([rep] holds no [$] pattern here). *)
Fixpoint replace (pat rep s : string) : string :=
  if String.prefix pat s then rep ++ drop (String.length pat) s
  else match s with
       | EmptyString => EmptyString
       | String c s' => String c (replace pat rep s')
       end.

(** The replacement of every occurrence that the specification asks for
    ([s.replaceAll(pat, rep)]), for a non-empty pattern: a scan from left to
    right that resumes after each replaced occurrence.  [fuel] bounds the
    number of characters consumed; [String.length s] is always enough.  The
    code does not call it; it is here to be compared with [replace]. *)
Fixpoint replaceAll_fuel (fuel : nat) (pat rep s : string) : string :=
  match fuel with
  | O => s
  | S fuel' =>
      match s with
      | EmptyString => EmptyString
      | String c s' =>
          if String.prefix pat s
          then rep ++ replaceAll_fuel fuel' pat rep (drop (String.length pat) s)
          else String c (replaceAll_fuel fuel' pat rep s')
      end
  end.

Definition replaceAll (pat rep s : string) : string :=
  replaceAll_fuel (String.length s) pat rep s.

(** [s.includes(p)] *)
Fixpoint includes (s p : string) : bool :=
  String.prefix p s ||
  match s with
  | EmptyString => false
  | String _ s' => includes s' p
  end.

(** [s.replace(/\/$/, '')]: the pattern is anchored at the end of the input,
    so at most the last character is removed, and only when it is a slash. *)
Fixpoint strip_trailing_slash (s : string) : string :=
  match s with
  | EmptyString => EmptyString
  | String c s' =>
      match s' with
      | EmptyString => if Ascii.eqb c "/"%char then EmptyString else s
      | String _ _ => String c (strip_trailing_slash s')
      end
  end.

End Js.

(* ================================================================== *)
(** * utils.ts *)

Module Utils.
Import Js.

(** ** Media resources and [getMediaUrl] *)

Inductive MediaFormat := Fdefault | Fsource | Fthumb | Fsquare | Fcover | Fstories.
Inductive MediaExtension := Ejpg | Ewebp | Eavif | Epng | Emp4 | Emp3 | Egif.
Inductive VideoDefinition := Dhd | Dsd.
Inductive MediaType := Timage | Tvideo | Taudio.

Definition format_name (f : MediaFormat) : string :=
  match f with
  | Fdefault => "default" | Fsource => "source" | Fthumb => "thumb"
  | Fsquare => "square" | Fcover => "cover" | Fstories => "stories"
  end.

Definition ext_name (e : MediaExtension) : string :=
  match e with
  | Ejpg => "jpg" | Ewebp => "webp" | Eavif => "avif" | Epng => "png"
  | Emp4 => "mp4" | Emp3 => "mp3" | Egif => "gif"
  end.

Definition definition_name (d : VideoDefinition) : string :=
  match d with Dhd => "hd" | Dsd => "sd" end.

Definition type_name (t : MediaType) : string :=
  match t with Timage => "image" | Tvideo => "video" | Taudio => "audio" end.

Definition MediaFormat_eqb (a b : MediaFormat) : bool :=
  match a, b with
  | Fdefault, Fdefault | Fsource, Fsource | Fthumb, Fthumb
  | Fsquare, Fsquare | Fcover, Fcover | Fstories, Fstories => true
  | _, _ => false
  end.

(** [attributes.fingerprints]: one entry per format. *)
Record Fingerprints := mkFingerprints {
  fp_source : string;
  fp_default : string;
  fp_thumb : string;
  fp_square : string;
  fp_cover : string;
  fp_stories : string
}.

(** [fingerprints[format]] *)
Definition fingerprint_at (fps : Fingerprints) (f : MediaFormat) : string :=
  match f with
  | Fdefault => fp_default fps | Fsource => fp_source fps
  | Fthumb => fp_thumb fps | Fsquare => fp_square fps
  | Fcover => fp_cover fps | Fstories => fp_stories fps
  end.

(** The fields of a [Media] that [getMediaUrl] reads. *)
Record Media := mkMedia {
  media_id : Z;
  media_type : MediaType;
  mimetype : string;
  fingerprints : Fingerprints
}.

Record GetMediaUrlOptions := mkOptions {
  domain : string;
  media : Media;
  format : option MediaFormat;
  width : option Z;
  slug : option string;
  ext : option MediaExtension;
  definition : option VideoDefinition
}.

(** A synchronous call either returns or throws [new Error(message)]. *)
Inductive Result (A : Type) : Type :=
| Return (a : A)
| Throw (message : string).
Arguments Return {A} a.
Arguments Throw {A} message.

Definition is_playable_ext (e : option MediaExtension) : bool :=
  match e with Some Emp4 | Some Emp3 => true | _ => false end.

Definition is_gif_ext (e : option MediaExtension) : bool :=
  match e with Some Egif => true | _ => false end.

Definition is_video_or_audio (t : MediaType) : bool :=
  match t with Tvideo | Taudio => true | Timage => false end.

Definition is_default_or_source (f : MediaFormat) : bool :=
  match f with Fdefault | Fsource => true | _ => false end.

(** [`.${ext}`] inside the three messages; [ext] is present where it is used. *)
Definition ext_text (e : option MediaExtension) : string :=
  match e with Some x => ext_name x | None => "undefined" end.

(** [definition ?? width], rendered as the template literal renders it. *)
Definition size_text (d : option VideoDefinition) (w : option Z) : option string :=
  match d with
  | Some x => Some (definition_name x)
  | None => match w with
            | Some n => Some (string_of_number n)
            | None => None
            end
  end.

(** Sequencing of statements that may throw. *)
Definition bind {A B : Type} (r : Result A) (k : A -> Result B) : Result B :=
  match r with
  | Return a => k a
  | Throw m => Throw m
  end.

Notation "r ;; k" := (bind r (fun _ => k))
  (at level 61, right associativity).

(** [if (c) { throw new Error(m) }] *)
Definition throw_if (c : bool) (m : string) : Result unit :=
  if c then Throw m else Return tt.

Definition getMediaUrl (options : GetMediaUrlOptions) : Result string :=
  let domain := domain options in
  let media := media options in
  let format := match format options with Some f => f | None => Fdefault end in
  let width := width options in
  let slug := match slug options with Some s => s | None => "media" end in
  let ext := ext options in
  let definition := definition options in
  (if is_playable_ext ext then
     if is_video_or_audio (media_type media) then
       throw_if (negb (is_default_or_source format))
         ("[BTF-MEDIA] Format '" ++ format_name format ++ "' is not allowed for "
          ++ type_name (media_type media) ++ " with ext ." ++ ext_text ext
          ++ ". Use 'default' or 'source'.") ;;
       throw_if (match definition with None => true | Some _ => false end)
         ("[BTF-MEDIA] " ++ type_name (media_type media)
          ++ " requires 'definition' parameter for extension ." ++ ext_text ext)
     else
       Throw ("[BTF-MEDIA] Invalid media type (" ++ type_name (media_type media)
              ++ ") for extension ." ++ ext_text ext)
   else Return tt) ;;
  throw_if (String.eqb (mimetype media) "image/gif" && is_gif_ext ext
            && negb (MediaFormat_eqb format Fsource))
    "[BTF-MEDIA] GIF images must use 'source' format" ;;
  let fingerprint := fingerprint_at (fingerprints media) format in
  let extension := match ext with Some e => "." ++ ext_name e | None => "" end in
  match size_text definition width with
  | None =>
      Return (domain ++ "/v1/" ++ string_of_number (media_id media) ++ "-"
              ++ format_name format ++ "/" ++ fingerprint ++ "/" ++ slug ++ extension)
  | Some size =>
      Return (domain ++ "/v1/" ++ string_of_number (media_id media) ++ "-"
              ++ format_name format ++ "-" ++ size ++ "/" ++ fingerprint ++ "/"
              ++ slug ++ extension)
  end.

(** ** Related pointers and [getRelated] *)

(** [Related]: a pointer [{ id, type }]. *)
Record Related := mkRelated {
  rel_id : Id;
  rel_type : string
}.

(** [Resource]: the envelope [{ id, type, attributes, relationships }];
    [getRelated] reads [id] and [type] and returns the envelope itself, so
    the rest of it is kept as one opaque payload. *)
Record Resource (Payload : Type) := mkResource {
  res_id : Id;
  res_type : string;
  res_payload : Payload
}.
Arguments mkResource {Payload} _ _ _.
Arguments res_id {Payload} _.
Arguments res_type {Payload} _.
Arguments res_payload {Payload} _.

(** [resource.id === related.id && resource.type === related.type] *)
Definition matches {P : Type} (related : Related) (resource : Resource P) : bool :=
  Id_eqb (res_id resource) (rel_id related)
  && String.eqb (res_type resource) (rel_type related).

(** [Array.prototype.find] is [List.find]: the first element, in index
    order, on which the predicate holds, or [undefined]. *)
Definition getRelated {P : Type} (related : option Related)
    (included : list (Resource P)) : option (Resource P) :=
  match related with
  | None => None
  | Some related => List.find (matches related) included
  end.

(** ** Categories and [getCategoryChildrenIds] *)

(** The fields of a [Category] that the traversal reads: its numeric [id]
    and [relationships.parentCategory.data]. *)
Record Category := mkCategory {
  cat_id : Z;
  parentCategory : option Related
}.

(** [cat.relationships.parentCategory.data?.id === parentId], with
    [parentId] a number: a null pointer and a string identifier never match. *)
Definition parent_is (parentId : Z) (cat : Category) : bool :=
  match parentCategory cat with
  | Some r => Id_eqb (rel_id r) (IdNum parentId)
  | None => false
  end.

(** [for (const x of xs) { body }] over the state the body updates; [None]
    is a body that does not complete. *)
Fixpoint for_of {A S : Type} (xs : list A) (body : A -> S -> option S) (s : S)
    : option S :=
  match xs with
  | [] => Some s
  | x :: xs' =>
      match body x s with
      | Some s' => for_of xs' body s'
      | None => None
      end
  end.

(** The inner closure [findChildren].  The array [childrenIds] it pushes to
    is threaded as state.  JavaScript bounds the depth of the recursion only
    by its call stack; [fuel] is the depth still available, and [None] a
    recursion deeper than that. *)
Fixpoint findChildren (fuel : nat) (categories : list Category)
    (parentId : Z) (childrenIds : list Z) : option (list Z) :=
  match fuel with
  | O => None
  | S fuel' =>
      let children := filter (parent_is parentId) categories in
      for_of children
        (fun child childrenIds =>
           findChildren fuel' categories (cat_id child)
             (childrenIds ++ [cat_id child]))
        childrenIds
  end.

Definition getCategoryChildrenIds (fuel : nat) (category : Category)
    (categories : list Category) : option (list Z) :=
  findChildren fuel categories (cat_id category) [cat_id category].

(** The body of the loop of [findChildren] at depth [fuel]. *)
Definition visit_child (categories : list Category) (fuel : nat)
    (child : Category) (childrenIds : list Z) : option (list Z) :=
  findChildren fuel categories (cat_id child) (childrenIds ++ [cat_id child]).

(** *** The parent pointers as a graph *)

(** The children of an identifier, in the order of the list. *)
Definition children_of (categories : list Category) (parentId : Z)
    : list Category :=
  filter (parent_is parentId) categories.

(** [edge categories p c]: some category of the list has identifier [c] and
    a parent pointer equal to [p]. *)
Definition edge (categories : list Category) (p c : Z) : Prop :=
  exists cat, In cat categories /\ parent_is p cat = true /\ cat_id cat = c.

(** The parent pointers are acyclic: no identifier is its own descendant. *)
Definition acyclic (categories : list Category) : Prop :=
  forall x, ~ clos_trans Z (edge categories) x x.

(** A cycle can be reached from [p] by following parent pointers downwards. *)
Definition reaches_cycle (categories : list Category) (p : Z) : Prop :=
  exists x, clos_refl_trans Z (edge categories) p x
            /\ clos_trans Z (edge categories) x x.

(** The pre-order listing of the strict descendants of an identifier, as a
    relation: every child in list order, each followed by its own listing
    before the next sibling. *)
Inductive preorder (categories : list Category) : Z -> list Z -> Prop :=
| preorder_node (p : Z) (l : list Z) :
    preorder_siblings categories (children_of categories p) l ->
    preorder categories p l
with preorder_siblings (categories : list Category)
    : list Category -> list Z -> Prop :=
| preorder_done : preorder_siblings categories [] []
| preorder_next (child : Category) (rest : list Category) (l1 l2 : list Z) :
    preorder categories (cat_id child) l1 ->
    preorder_siblings categories rest l2 ->
    preorder_siblings categories (child :: rest) (cat_id child :: l1 ++ l2).

Scheme preorder_mut := Induction for preorder Sort Prop
with preorder_siblings_mut := Induction for preorder_siblings Sort Prop.

(** The forest of the test suite: 1 <- 2 <- 3, 4; 1 <- 5; 6 <- 7. *)
Definition category (id : Z) (parent : option Z) : Category :=
  mkCategory id
    (match parent with
     | Some p => Some (mkRelated (IdNum p) "category")
     | None => None
     end).

Definition mockCategories : list Category :=
  [category 1 None; category 2 (Some 1); category 3 (Some 2);
   category 4 (Some 2); category 5 (Some 1); category 6 None;
   category 7 (Some 6)].

(** A category that is not in the list, and a list that points to it. *)
Definition orphan_parent : Category := category 1 None.
Definition orphan_children : list Category := [category 2 (Some 1)].

(** Two categories that are each other's parent. *)
Definition cyclic_pair : list Category :=
  [category 1 (Some 2); category 2 (Some 1)].

(** ** The statements of the specification, for comparison *)

(** The format and the slug after defaulting. *)
Definition chosen_format (o : GetMediaUrlOptions) : MediaFormat :=
  match format o with Some f => f | None => Fdefault end.

Definition chosen_slug (o : GetMediaUrlOptions) : string :=
  match slug o with Some s => s | None => "media" end.

(** The four conditions under which the specification lets the call fail. *)
Definition playable (e : option MediaExtension) : Prop :=
  e = Some Emp4 \/ e = Some Emp3.

Definition video_or_audio (t : MediaType) : Prop :=
  t = Tvideo \/ t = Taudio.

Definition wrong_type_for_playable (o : GetMediaUrlOptions) : Prop :=
  playable (ext o) /\ ~ video_or_audio (media_type (media o)).

Definition wrong_format_for_playable (o : GetMediaUrlOptions) : Prop :=
  playable (ext o) /\ video_or_audio (media_type (media o))
  /\ chosen_format o <> Fdefault /\ chosen_format o <> Fsource.

Definition missing_definition (o : GetMediaUrlOptions) : Prop :=
  playable (ext o) /\ video_or_audio (media_type (media o))
  /\ definition o = None.

Definition gif_not_source (o : GetMediaUrlOptions) : Prop :=
  mimetype (media o) = "image/gif" /\ ext o = Some Egif
  /\ chosen_format o <> Fsource.

(** "[(id, type)] equals the pointer's." *)
Definition same_identity {P : Type} (related : Related) (resource : Resource P)
    : Prop :=
  res_id resource = rel_id related /\ res_type resource = rel_type related.

(** The validation and the assembly of [getMediaUrl], separated. *)
Definition assembled (o : GetMediaUrlOptions) : string :=
  match size_text (definition o) (width o) with
  | None =>
      domain o ++ "/v1/" ++ string_of_number (media_id (media o)) ++ "-"
      ++ format_name (chosen_format o) ++ "/"
      ++ fingerprint_at (fingerprints (media o)) (chosen_format o) ++ "/"
      ++ chosen_slug o
      ++ match ext o with Some e => "." ++ ext_name e | None => "" end
  | Some size =>
      domain o ++ "/v1/" ++ string_of_number (media_id (media o)) ++ "-"
      ++ format_name (chosen_format o) ++ "-" ++ size ++ "/"
      ++ fingerprint_at (fingerprints (media o)) (chosen_format o) ++ "/"
      ++ chosen_slug o
      ++ match ext o with Some e => "." ++ ext_name e | None => "" end
  end.

Definition rejected (o : GetMediaUrlOptions) : bool :=
  (is_playable_ext (ext o)
   && (negb (is_video_or_audio (media_type (media o)))
       || negb (is_default_or_source (chosen_format o))
       || match definition o with None => true | Some _ => false end))
  || (String.eqb (mimetype (media o)) "image/gif" && is_gif_ext (ext o)
      && negb (MediaFormat_eqb (chosen_format o) Fsource)).

(** The media of the test suite. *)
Definition mockFingerprints (stem : string) : Fingerprints :=
  {| fp_source := stem ++ "source"; fp_default := stem ++ "default";
     fp_thumb := stem ++ "thumb"; fp_square := stem ++ "square";
     fp_cover := stem ++ "cover"; fp_stories := stem ++ "stories" |}.

Definition mockImage : Media :=
  mkMedia 123 Timage "image/jpeg" (mockFingerprints "abc123").
Definition mockVideo : Media :=
  mkMedia 456 Tvideo "video/mp4" (mockFingerprints "def456").
Definition mockAudio : Media :=
  mkMedia 789 Taudio "audio/mpeg" (mockFingerprints "ghi789").
Definition gifImage : Media :=
  mkMedia 123 Timage "image/gif" (mockFingerprints "abc123").

Definition test_domain : string := "https://xxx.staticbtf.eno.do".

End Utils.
(* ================================================================== *)
(** * utils.ts: [getMediaUrl] over every number *)

(** [getMediaUrl] uses the numbers it is given, [media.id] and [width],
    only inside a template literal.  This second embedding of the function
    leaves the type of numbers and their rendering open, so that it covers
    every value the language has: fractions, numbers printed with an
    exponent, [NaN].  The embedding over [Z] above is its instance at the
    integers ([as_any_number]). *)

Module AnyNumber.
Import Js Utils.

Section Numbers.

Variable Number : Type.

(** [`${n}`] on a number. *)
Variable NumberToString : Number -> string.

Record Media := mkMedia {
  media_id : Number;
  media_type : MediaType;
  mimetype : string;
  fingerprints : Fingerprints
}.

Record GetMediaUrlOptions := mkOptions {
  domain : string;
  media : Media;
  format : option MediaFormat;
  width : option Number;
  slug : option string;
  ext : option MediaExtension;
  definition : option VideoDefinition
}.

(** [definition ?? width], rendered as the template literal renders it. *)
Definition size_text (d : option VideoDefinition) (w : option Number)
    : option string :=
  match d with
  | Some x => Some (definition_name x)
  | None => match w with
            | Some n => Some (NumberToString n)
            | None => None
            end
  end.

Definition getMediaUrl (options : GetMediaUrlOptions) : Result string :=
  let domain := domain options in
  let media := media options in
  let format := match format options with Some f => f | None => Fdefault end in
  let width := width options in
  let slug := match slug options with Some s => s | None => "media" end in
  let ext := ext options in
  let definition := definition options in
  (if is_playable_ext ext then
     if is_video_or_audio (media_type media) then
       throw_if (negb (is_default_or_source format))
         ("[BTF-MEDIA] Format '" ++ format_name format ++ "' is not allowed for "
          ++ type_name (media_type media) ++ " with ext ." ++ ext_text ext
          ++ ". Use 'default' or 'source'.") ;;
       throw_if (match definition with None => true | Some _ => false end)
         ("[BTF-MEDIA] " ++ type_name (media_type media)
          ++ " requires 'definition' parameter for extension ." ++ ext_text ext)
     else
       Throw ("[BTF-MEDIA] Invalid media type (" ++ type_name (media_type media)
              ++ ") for extension ." ++ ext_text ext)
   else Return tt) ;;
  throw_if (String.eqb (mimetype media) "image/gif" && is_gif_ext ext
            && negb (MediaFormat_eqb format Fsource))
    "[BTF-MEDIA] GIF images must use 'source' format" ;;
  let fingerprint := fingerprint_at (fingerprints media) format in
  let extension := match ext with Some e => "." ++ ext_name e | None => "" end in
  match size_text definition width with
  | None =>
      Return (domain ++ "/v1/" ++ NumberToString (media_id media) ++ "-"
              ++ format_name format ++ "/" ++ fingerprint ++ "/" ++ slug ++ extension)
  | Some size =>
      Return (domain ++ "/v1/" ++ NumberToString (media_id media) ++ "-"
              ++ format_name format ++ "-" ++ size ++ "/" ++ fingerprint ++ "/"
              ++ slug ++ extension)
  end.

(** ** The URL as the specification words it

    Each table below is written from the words of the specification and of
    the type declarations of utils.ts, not from the functions that
    [getMediaUrl] calls. *)

(** "[format] defaults to ['default']": the text of the format segment. *)
Definition spec_format_text (f : option MediaFormat) : string :=
  match f with
  | None => "default"
  | Some Fdefault => "default"
  | Some Fsource => "source"
  | Some Fthumb => "thumb"
  | Some Fsquare => "square"
  | Some Fcover => "cover"
  | Some Fstories => "stories"
  end.

(** "[fingerprints[format]]": the entry of the mapping under the key of
    the chosen format. *)
Definition spec_fingerprint (fps : Fingerprints) (f : option MediaFormat)
    : string :=
  match f with
  | None => fp_default fps
  | Some Fdefault => fp_default fps
  | Some Fsource => fp_source fps
  | Some Fthumb => fp_thumb fps
  | Some Fsquare => fp_square fps
  | Some Fcover => fp_cover fps
  | Some Fstories => fp_stories fps
  end.

(** "[[-{size}]]: [size] is [definition] if present, else [width] if
    present, else absent", the segment being omitted when it is absent. *)
Definition spec_size_segment (d : option VideoDefinition) (w : option Number)
    : string :=
  match d, w with
  | Some Dhd, _ => "-hd"
  | Some Dsd, _ => "-sd"
  | None, Some n => "-" ++ NumberToString n
  | None, None => ""
  end.

(** "[slug] defaults to ['media']". *)
Definition spec_slug (s : option string) : string :=
  match s with
  | None => "media"
  | Some x => x
  end.

(** "[[.{ext}]]", omitted when no extension is given. *)
Definition spec_ext_suffix (e : option MediaExtension) : string :=
  match e with
  | None => ""
  | Some Ejpg => ".jpg"
  | Some Ewebp => ".webp"
  | Some Eavif => ".avif"
  | Some Epng => ".png"
  | Some Emp4 => ".mp4"
  | Some Emp3 => ".mp3"
  | Some Egif => ".gif"
  end.

(** "[{domain}/v1/{media.id}-{format}[-{size}]/{fingerprint}/{slug}[.{ext}]]" *)
Definition spec_media_url (o : GetMediaUrlOptions) : string :=
  domain o ++ "/v1/" ++ NumberToString (media_id (media o)) ++ "-"
  ++ spec_format_text (format o)
  ++ spec_size_segment (definition o) (width o)
  ++ "/" ++ spec_fingerprint (fingerprints (media o)) (format o)
  ++ "/" ++ spec_slug (slug o)
  ++ spec_ext_suffix (ext o).

(** The same options on a media with another fingerprint mapping. *)
Definition with_fingerprints (o : GetMediaUrlOptions) (fps : Fingerprints)
    : GetMediaUrlOptions :=
  {| domain := domain o;
     media := {| media_id := media_id (media o);
                 media_type := media_type (media o);
                 mimetype := mimetype (media o);
                 fingerprints := fps |};
     format := format o; width := width o; slug := slug o; ext := ext o;
     definition := definition o |}.

End Numbers.

Arguments mkMedia {Number} _ _ _ _.
Arguments media_id {Number} _.
Arguments media_type {Number} _.
Arguments mimetype {Number} _.
Arguments fingerprints {Number} _.
Arguments mkOptions {Number} _ _ _ _ _ _ _.
Arguments domain {Number} _.
Arguments media {Number} _.
Arguments format {Number} _.
Arguments width {Number} _.
Arguments slug {Number} _.
Arguments ext {Number} _.
Arguments definition {Number} _.
Arguments getMediaUrl {Number} _ _.
Arguments spec_media_url {Number} _ _.
Arguments spec_size_segment {Number} _ _ _.
Arguments with_fingerprints {Number} _ _.

(** The options over [Z] as options over any number. *)
Definition as_any_number (o : Utils.GetMediaUrlOptions) : GetMediaUrlOptions Z :=
  {| domain := Utils.domain o;
     media := {| media_id := Utils.media_id (Utils.media o);
                 media_type := Utils.media_type (Utils.media o);
                 mimetype := Utils.mimetype (Utils.media o);
                 fingerprints := Utils.fingerprints (Utils.media o) |};
     format := Utils.format o; width := Utils.width o; slug := Utils.slug o;
     ext := Utils.ext o; definition := Utils.definition o |}.

(** An image whose six fingerprints are pairwise different. *)
Definition sixImage : Media Z :=
  mkMedia 123 Timage "image/jpeg"
    (mkFingerprints "abc-source" "abc-default" "abc-thumb" "abc-square"
       "abc-cover" "abc-stories").

End AnyNumber.

(* ================================================================== *)
(** * errors.ts *)

Module Errors.
Import Js.

(** Parsed JSON, the run-time shape of [(await res.json()) as unknown].
    [JObj] lists the own properties of the object, each key once. *)
Inductive Json : Type :=
| JNull
| JBool (b : bool)
| JNum (n : Z)
| JStr (s : string)
| JArr (items : list Json)
| JObj (fields : list (string * Json)).

(** A JavaScript value read from parsed JSON: [None] is [undefined]. *)
Definition JsVal : Type := option Json.

(** An exception raised by a collaborator (the transport, the observation
    callback, the body reader).  The code inspects its class and its name. *)
Inductive ErrorClass := CTypeError | COtherError | CNotAnError.

Record Exn := mkExn {
  exn_class : ErrorClass;
  exn_name : string;
  exn_message : string
}.

(** [error instanceof TypeError] *)
Definition instanceof_TypeError (e : Exn) : bool :=
  match exn_class e with CTypeError => true | _ => false end.

(** [error instanceof Error] *)
Definition instanceof_Error (e : Exn) : bool :=
  match exn_class e with CNotAnError => false | _ => true end.

(** What a call of [Client.get] can raise: a plain [Error] (usage), one of
    the three classes of errors.ts, built by their constructors below, or an
    exception that the code does not catch and lets through unchanged: one
    of a collaborator, or the [TypeError] of the language when a value of
    the body cannot be converted to a primitive. *)
Inductive Thrown : Type :=
| PlainError (message : string)
| RedirectError (status : JsVal) (location : JsVal)
| ApiError (status : JsVal) (title : JsVal) (details : JsVal)
| NetworkError (originalError : Exn)
| Propagated (e : Exn).

(** Whether a parsed object has an own property of that name. *)
Fixpoint has_key (key : string) (fields : list (string * Json)) : bool :=
  match fields with
  | [] => false
  | (k, _) :: rest => String.eqb k key || has_key key rest
  end.

(** [String(v)] on parsed JSON, as a template literal or a comparison with
    a number applies it; [None] is the [TypeError] of a value that cannot be
    converted to a primitive.  An array is joined with commas, [null] being
    rendered as the empty string.  An object is rendered by
    [Object.prototype.toString], unless it has an own property [toString]:
    a parsed value is never callable, so the conversion then finds no
    method that yields a primitive, and throws. *)
Fixpoint ToString (v : Json) : option string :=
  match v with
  | JNull => Some "null"
  | JBool true => Some "true"
  | JBool false => Some "false"
  | JNum n => Some (string_of_number n)
  | JStr s => Some s
  | JArr items =>
      (fix join (l : list Json) : option string :=
         match l with
         | [] => Some ""
         | x :: rest =>
             match match x with JNull => Some "" | _ => ToString x end with
             | None => None
             | Some elt =>
                 match rest with
                 | [] => Some elt
                 | _ :: _ =>
                     match join rest with
                     | Some tail => Some (elt ++ "," ++ tail)
                     | None => None
                     end
                 end
             end
         end) items
  | JObj fields =>
      if has_key "toString" fields then None else Some "[object Object]"
  end.

(** [`${v}`] on a value that may be [undefined]. *)
Definition template (v : JsVal) : option string :=
  match v with
  | Some j => ToString j
  | None => Some "undefined"
  end.

(** The [TypeError] of a failed conversion. *)
Definition cannot_convert : Exn :=
  mkExn CTypeError "TypeError" "Cannot convert object to primitive value".

(** [new RedirectError(status, location)]: the constructor first builds the
    message [`[BTF-API] Redirect (${status}) to ${location}`], which throws
    when one of the two cannot be converted. *)
Definition new_RedirectError (status location : JsVal) : Thrown :=
  match template status, template location with
  | Some _, Some _ => RedirectError status location
  | _, _ => Propagated cannot_convert
  end.

(** [new ApiError(status, title, details = '')]: the constructor first
    builds the message [`[BTF-API] Error ${status}: ${title}`], which throws
    when one of the two cannot be converted; the default applies when the
    third argument is [undefined]. *)
Definition new_ApiError (status title details : JsVal) : Thrown :=
  match template status, template title with
  | Some _, Some _ =>
      ApiError status title
        (match details with Some d => Some d | None => Some (JStr "") end)
  | _, _ => Propagated cannot_convert
  end.

(** [new NetworkError(originalError)] *)
Definition new_NetworkError (originalError : Exn) : Thrown :=
  NetworkError originalError.

End Errors.

(* ================================================================== *)
(** * client.ts *)

Module Client.
Import Js Errors.

(** ** Coercions of the language used by the classification *)

(** Truthiness. *)
Definition truthy (v : Json) : bool :=
  match v with
  | JNull => false
  | JBool b => b
  | JNum n => negb (Z.eqb n 0)
  | JStr s => negb (String.eqb s "")
  | JArr _ | JObj _ => true
  end.

(** [v.key] for a key that no array, string, number or boolean carries. *)
Fixpoint lookup (key : string) (fields : list (string * Json)) : JsVal :=
  match fields with
  | [] => None
  | (k, v) :: rest => if String.eqb k key then Some v else lookup key rest
  end.

Definition get_prop (v : Json) (key : string) : JsVal :=
  match v with
  | JObj fields => lookup key fields
  | _ => None
  end.

(** ** Requests, responses and collaborators *)

Definition AbortSignal : Type := nat.

Record RequestInit := mkInit {
  init_headers : list (string * string);
  init_signal : option AbortSignal
}.

(** A [Response] as [get] uses it: [status], [headers], and [json], the
    outcome of the one [await res.json()] that [get] performs, after the
    observation callback has run.  It rejects when the body is not valid
    JSON, and also when the body cannot be read any more because the
    callback has consumed it. *)
Record Response := mkResponse {
  status : Z;
  headers : list (string * string);
  json : Exn + Json
}.

(** [res.ok] *)
Definition ok (res : Response) : bool :=
  (200 <=? status res) && (status res <=? 299).

(** A transport resolves with a response or rejects. *)
Definition Fetch : Type := string -> RequestInit -> Exn + Response.

(** An observation callback, as far as [get] depends on it: it returns, or
    it throws.  Whatever else it does with the response it is given (reading
    its body) reaches [get] only through the outcome of the body read, the
    field [json] of the response of that call.  So a statement about one
    call is a statement about the callback and the response of that call;
    nothing here relates a call with a callback to the same call without
    it. *)
Definition Intercept : Type := Response -> option Exn.

(** A query descriptor as [qs] sees it: the own properties of the object in
    insertion order ([include], [sort], [page: { size, number }],
    [filter: { ..., terms<id> }]), with string and number leaves. *)
Inductive QValue : Type :=
| QStr (s : string)
| QNum (n : Z)
| QObj (fields : list (string * QValue)).

Definition Query : Type := list (string * QValue).

Record ClientOptions := mkClientOptions {
  co_domain : string;
  co_publicKey : option string;
  co_version : option string;
  co_fetch : option Fetch
}.

Record FetchOptions := mkFetchOptions {
  path : option string;
  endpoint : option string;
  id : option Id;
  query : option Query;
  fetch : option Fetch;
  signal : option AbortSignal;
  intercept : option Intercept
}.

Record Client := mkClient {
  domain : string;
  publicKey : option string;
  apiVersion : string;
  fetcher : Fetch
}.

(** ** The effects of one call *)

Inductive Event : Type :=
| EvFetch (url : string) (init : RequestInit)
| EvIntercept (res : Response)
| EvJson (res : Response).

(** A computation performs events in order, then returns or throws. *)
Definition M (A : Type) : Type := list Event * (Thrown + A).

Definition ret {A : Type} (a : A) : M A := ([], inr a).
Definition throw {A : Type} (e : Thrown) : M A := ([], inl e).

Definition bind {A B : Type} (m : M A) (k : A -> M B) : M B :=
  match m with
  | (t, inl e) => (t, inl e)
  | (t, inr a) => let '(t', r) := k a in ((t ++ t')%list, r)
  end.

Notation "x <- m ;; k" := (bind m (fun x => k))
  (at level 61, m at next level, right associativity).
Notation "m ;; k" := (bind m (fun _ => k))
  (at level 61, right associativity).

(** [if (c) { body }] *)
Definition when (c : bool) (body : M unit) : M unit :=
  if c then body else ret tt.

(** ** The client *)

Section Runtime.

(** The ambient [globalThis.fetch]. *)
Variable globalThis_fetch : Fetch.

(** [qs.stringify(query, { encodeValuesOnly: true })], a function of the
    third-party package [qs]. *)
Variable qs_stringify : Query -> string.

(** The conversion of a string to a number that the language applies when a
    string is compared with a number, on the strings that denote an integer;
    [None] is [NaN]. *)
Variable StringToNumber : string -> option Z.

(** [ToNumber(ToPrimitive(v))] on a value read from parsed JSON: [None]
    when the value cannot be converted to a primitive (a [TypeError]),
    [Some None] for [NaN]. *)
Definition ToNumber (v : JsVal) : option (option Z) :=
  match v with
  | None => Some None
  | Some JNull => Some (Some 0)
  | Some (JBool b) => Some (Some (if b then 1 else 0))
  | Some (JNum n) => Some (Some n)
  | Some (JStr s) => Some (StringToNumber s)
  | Some (JArr items) => option_map StringToNumber (ToString (JArr items))
  | Some (JObj fields) => option_map StringToNumber (ToString (JObj fields))
  end.

(** [v >= n] and [v < n] against a number literal: false on [NaN], [None]
    when the conversion throws. *)
Definition js_ge (v : JsVal) (n : Z) : option bool :=
  option_map (fun x => match x with Some x => n <=? x | None => false end)
    (ToNumber v).

Definition js_lt (v : JsVal) (n : Z) : option bool :=
  option_map (fun x => match x with Some x => x <? n | None => false end)
    (ToNumber v).

(** A comparison as a step of a call. *)
Definition compare (c : option bool) : M bool :=
  match c with
  | Some b => ret b
  | None => throw (Propagated cannot_convert)
  end.

(** [new Client(options)] *)
Definition new_Client (options : ClientOptions) : Client :=
  {| domain := strip_trailing_slash (co_domain options);
     publicKey := co_publicKey options;
     apiVersion := match co_version options with Some v => v | None => "v1" end;
     fetcher := match co_fetch options with Some f => f | None => globalThis_fetch end |}.

Definition isApiErrorResponse (value : Json) : bool :=
  match value with
  | JObj fields =>
      match lookup "errors" fields with
      | Some (JArr _) => true
      | _ => false
      end
  | _ => false
  end.

(** [data.errors] once [isApiErrorResponse(data)] holds. *)
Definition errors_of (data : Json) : list Json :=
  match get_prop data "errors" with
  | Some (JArr items) => items
  | _ => []
  end.

(** [await fetcher(url, init)] inside its [try]/[catch]. *)
Definition call_fetch (fetcher : Fetch) (url : string) (init : RequestInit)
    : M Response :=
  match fetcher url init with
  | inr res => ([EvFetch url init], inr res)
  | inl error =>
      if instanceof_TypeError error
         || (instanceof_Error error && String.eqb (exn_name error) "AbortError")
      then ([EvFetch url init], inl (new_NetworkError error))
      else ([EvFetch url init], inl (Propagated error))
  end.

(** [intercept(res)] *)
Definition call_intercept (cb : Intercept) (res : Response) : M unit :=
  match cb res with
  | None => ([EvIntercept res], inr tt)
  | Some e => ([EvIntercept res], inl (Propagated e))
  end.

(** [await res.json()] *)
Definition call_json (res : Response) : M Json :=
  match json res with
  | inr data => ([EvJson res], inr data)
  | inl e => ([EvJson res], inl (Propagated e))
  end.

(** The query string [qstr] of lines 178-180. *)
Definition qstr (query : option Query) : string :=
  match query with
  | Some q => "?" ++ replace "%2523" "%23" (qs_stringify q)
  | None => ""
  end.

(** An optional string or identifier used as a condition: the branch is
    taken with the value when it is present and truthy. *)
Definition if_string (s : option string) : option string :=
  match s with
  | Some x => if string_truthy x then Some x else None
  | None => None
  end.

Definition if_Id (i : option Id) : option Id :=
  match i with
  | Some x => if Id_truthy x then Some x else None
  | None => None
  end.

(** The block of [get] that assigns [url]. *)
Definition resolve_url (this : Client) (o : FetchOptions) : M string :=
  match if_string (path o) with
  | Some path =>
      when (negb (startsWith path ("/" ++ apiVersion this)))
        (throw (PlainError ("[BTF-API] Invalid path : must starts with '/"
                            ++ apiVersion this ++ "', got '" ++ path ++ "'"))) ;;
      ret (domain this ++ path)
  | None =>
      match if_string (endpoint o) with
      | None =>
          throw (PlainError "[BTF-API] You must provide either a path or an endpoint")
      | Some endpoint =>
          let qstr := qstr (query o) in
          match if_Id (id o) with
          | Some id =>
              ret (domain this ++ "/" ++ apiVersion this ++ "/" ++ endpoint
                   ++ "/" ++ string_of_Id id ++ qstr)
          | None =>
              ret (domain this ++ "/" ++ apiVersion this ++ "/" ++ endpoint ++ qstr)
          end
      end
  end.

(** The [headers] record of the request. *)
Definition request_headers (this : Client) : list (string * string) :=
  match if_string (publicKey this) with
  | Some key => [("Accept", "application/json"); ("X-Butterfly-Key", key)]
  | None => [("Accept", "application/json")]
  end.

(** The classification of the parsed body. *)
Definition classify (res : Response) (data : Json) : M Json :=
  when (isApiErrorResponse data && negb (Nat.eqb (List.length (errors_of data)) 0))
    (match errors_of data with
     | [] => throw (new_ApiError (Some (JNum (status res))) (Some (JStr "Unknown error")) None)
     | err :: _ =>
         when (negb (truthy err))
           (throw (new_ApiError (Some (JNum (status res))) (Some (JStr "Unknown error")) None)) ;;
         at_least_300 <- compare (js_ge (get_prop err "status") 300) ;;
         redirect <- (if at_least_300
                      then compare (js_lt (get_prop err "status") 400)
                      else ret false) ;;
         when redirect
           (throw (new_RedirectError (get_prop err "status") (get_prop err "detail"))) ;;
         throw (new_ApiError (get_prop err "status") (get_prop err "title")
                  (get_prop err "detail"))
     end) ;;
  when (negb (ok res))
    (throw (new_ApiError (Some (JNum (status res))) (Some (JStr "Unknown error")) None)) ;;
  ret data.

(** [Client.get] *)
Definition get (this : Client) (o : FetchOptions) : M Json :=
  let fetcher := match fetch o with Some f => f | None => fetcher this end in
  url <- resolve_url this o ;;
  let headers := request_headers this in
  res <- call_fetch fetcher url (mkInit headers (signal o)) ;;
  match intercept o with
  | Some intercept => call_intercept intercept res
  | None => ret tt
  end ;;
  data <- call_json res ;;
  classify res data.

(** The steps of [get] once the transport has resolved. *)
Definition after_response (o : FetchOptions) (res : Response) : M Json :=
  bind (match intercept o with
        | Some intercept => call_intercept intercept res
        | None => ret tt
        end)
    (fun _ => bind (call_json res) (fun data => classify res data)).

End Runtime.

(** ** A model of [qs.stringify] for evaluation

    The serializer belongs to the package [qs], not to this repository, and
    every general statement below takes it as a parameter.  To evaluate
    [get] on concrete queries, [qs_stringify_model] follows the documented
    behaviour of [qs.stringify(query, { encodeValuesOnly: true })] on nested
    objects with string and number leaves: keys are joined in bracket
    notation and left as they are, values are percent-encoded except for
    letters, digits and [-._~], and the pairs are joined by [&]. *)

Definition hex_digit (n : nat) : ascii :=
  match n with
  | 0 => "0" | 1 => "1" | 2 => "2" | 3 => "3" | 4 => "4" | 5 => "5"
  | 6 => "6" | 7 => "7" | 8 => "8" | 9 => "9" | 10 => "A" | 11 => "B"
  | 12 => "C" | 13 => "D" | 14 => "E" | _ => "F"
  end%nat%char.

Definition is_unreserved (c : ascii) : bool :=
  let n := nat_of_ascii c in
  (Nat.eqb n 45 || Nat.eqb n 46 || Nat.eqb n 95 || Nat.eqb n 126
   || (Nat.leb 48 n && Nat.leb n 57)
   || (Nat.leb 65 n && Nat.leb n 90)
   || (Nat.leb 97 n && Nat.leb n 122))%nat.

Fixpoint qs_encode (s : string) : string :=
  match s with
  | EmptyString => EmptyString
  | String c s' =>
      if is_unreserved c then String c (qs_encode s')
      else String "%" (String (hex_digit (Nat.div (nat_of_ascii c) 16))
                         (String (hex_digit (Nat.modulo (nat_of_ascii c) 16))
                            (qs_encode s')))
  end.

Fixpoint qs_pairs (prefix : string) (v : QValue) : list string :=
  match v with
  | QStr s => [prefix ++ "=" ++ qs_encode s]
  | QNum n => [prefix ++ "=" ++ qs_encode (string_of_number n)]
  | QObj fields =>
      (fix each (l : list (string * QValue)) : list string :=
         match l with
         | [] => []
         | (k, x) :: rest => (qs_pairs (prefix ++ "[" ++ k ++ "]") x ++ each rest)%list
         end) fields
  end.

Definition qs_stringify_model (q : Query) : string :=
  String.concat "&" (flat_map (fun kv => qs_pairs (fst kv) (snd kv)) q).

(** An instance of the conversion of strings to numbers, for evaluation.
    It is the conversion of the language on the strings of decimal digits
    and on the empty string, and answers [NaN] on every other string, where
    the language accepts more (white space around, a sign, a fraction, an
    exponent, a radix prefix).  The fixtures evaluated with it carry numeric
    statuses, which never reach the conversion, and every general statement
    is proved for an arbitrary conversion. *)
Fixpoint digits_value (acc : Z) (s : string) : option Z :=
  match s with
  | EmptyString => Some acc
  | String c s' =>
      let n := nat_of_ascii c in
      if (Nat.leb 48 n && Nat.leb n 57)%nat
      then digits_value (10 * acc + Z.of_nat (n - 48)) s'
      else None
  end.

Definition StringToNumber_digits (s : string) : option Z := digits_value 0 s.

(** The options of a call with another request form. *)
Definition with_form (o : FetchOptions) (endpoint : option string)
    (id : option Id) (query : option Query) : FetchOptions :=
  {| path := path o; endpoint := endpoint; id := id; query := query;
     fetch := fetch o; signal := signal o; intercept := intercept o |}.

(** Whether the observation callback was invoked during a call. *)
Definition is_intercept (e : Event) : bool :=
  match e with EvIntercept _ => true | _ => false end.

Definition intercepted (trace : list Event) : bool := existsb is_intercept trace.

(** ** Collaborators and inputs for evaluation *)

(** A transport that resolves with a given response, and one that rejects. *)
Definition respond (res : Response) : Fetch := fun _ _ => inr res.
Definition reject (e : Exn) : Fetch := fun _ _ => inl e.

(** An observation callback that returns. *)
Definition observe : Intercept := fun _ => None.

(** The [TypeError] of a failed connection and the [SyntaxError] of
    [JSON.parse]. *)
Definition failed_to_fetch : Exn := mkExn CTypeError "TypeError" "fetch failed".
Definition unexpected_token : Exn :=
  mkExn COtherError "SyntaxError" "Unexpected token < in JSON at position 0".

Definition json_headers : list (string * string) :=
  [("content-type", "application/json")].

(** A client for [https://local.test], as in the test suite. *)
Definition local_client (transport : Fetch) : Client :=
  new_Client transport (mkClientOptions "https://local.test" None None (Some transport)).

(** [{ "errors": [null] }] under HTTP status 500. *)
Definition null_entry_body : Json := JObj [("errors", JArr [JNull])].
Definition null_entry_response : Response :=
  mkResponse 500 json_headers (inr null_entry_body).

(** [{ "errors": [{ "status": 301, "title": "Moved", "detail": "/v1/posts/2" }] }]
    under HTTP status 200. *)
Definition moved_body : Json :=
  JObj [("errors", JArr [JObj [("status", JNum 301); ("title", JStr "Moved");
                               ("detail", JStr "/v1/posts/2")]])].
Definition moved_response : Response := mkResponse 200 json_headers (inr moved_body).

(** [{ "errors": [{ "status": 404, "title": "Not Found", "detail": "No such post" }] }]
    under HTTP status 404. *)
Definition not_found_body : Json :=
  JObj [("errors", JArr [JObj [("status", JNum 404); ("title", JStr "Not Found");
                               ("detail", JStr "No such post")]])].
Definition not_found_response : Response :=
  mkResponse 404 json_headers (inr not_found_body).

(** A body that is not JSON, under HTTP status 502. *)
Definition html_response : Response :=
  mkResponse 502 [("content-type", "text/html")] (inl unexpected_token).

(** [{ path: '/vyolo', intercept }] and [{ endpoint: 'posts', intercept }]. *)
Definition invalid_path_call : FetchOptions :=
  mkFetchOptions (Some "/vyolo") None None None None None (Some observe).
Definition posts_call : FetchOptions :=
  mkFetchOptions None (Some "posts") None None None None (Some observe).

(** [{ path: '/v1/posts?page[number]=2', endpoint: 'categories', id: 7,
       query: { sort: '-id' } }]. *)
Definition both_forms_call : FetchOptions :=
  mkFetchOptions (Some "/v1/posts?page[number]=2") (Some "categories")
    (Some (IdNum 7)) (Some [("sort", QStr "-id")]) None None None.

(** [{ filter: { 'terms<a>': '%23x', 'terms<b>': '%23y' } }]: two values
    that already carry an escaped [#]. *)
Definition two_hashes : Query :=
  [("filter", QObj [("terms<a>", QStr "%23x"); ("terms<b>", QStr "%23y")])].

End Client.

(* ================================================================== *)
(** * Notions used to state further properties *)

Module Notions.
Import Js Utils.

(** The pointer [{ id, type }] to a resource, and its identity. *)
Definition pointer_to {P : Type} (resource : Resource P) : Related :=
  mkRelated (res_id resource) (res_type resource).

Definition identity {P : Type} (resource : Resource P) : Id * string :=
  (res_id resource, res_type resource).

(** The same options with another width. *)
Definition with_width (o : GetMediaUrlOptions) (w : option Z)
    : GetMediaUrlOptions :=
  {| Utils.domain := Utils.domain o; media := media o; format := format o;
     width := w; slug := slug o; ext := ext o; definition := definition o |}.

(** The three messages of [getMediaUrl] that depend on the options. *)
Definition invalid_type_message (o : GetMediaUrlOptions) : string :=
  "[BTF-MEDIA] Invalid media type (" ++ type_name (media_type (media o))
  ++ ") for extension ." ++ ext_text (ext o).

Definition format_not_allowed_message (o : GetMediaUrlOptions) : string :=
  "[BTF-MEDIA] Format '" ++ format_name (chosen_format o)
  ++ "' is not allowed for " ++ type_name (media_type (media o))
  ++ " with ext ." ++ ext_text (ext o) ++ ". Use 'default' or 'source'.".

Definition definition_required_message (o : GetMediaUrlOptions) : string :=
  "[BTF-MEDIA] " ++ type_name (media_type (media o))
  ++ " requires 'definition' parameter for extension ." ++ ext_text (ext o).

End Notions.

Module CallNotions.
Import Js Errors Client.

(** The same client with another default transport. *)
Definition with_fetcher (this : Client) (f : Fetch) : Client :=
  {| Client.domain := Client.domain this; publicKey := publicKey this;
     apiVersion := apiVersion this; fetcher := f |}.

(** The number of network calls among the events of a call. *)
Definition is_fetch (e : Event) : bool :=
  match e with EvFetch _ _ => true | _ => false end.

Definition fetch_count (trace : list Event) : nat :=
  List.length (filter is_fetch trace).

(** A body that [get] does not treat as an error response: not an object
    with an [errors] array, or one whose array is empty. *)
Definition no_errors_entry (data : Json) : bool :=
  negb (isApiErrorResponse data)
  || Nat.eqb (List.length (errors_of data)) 0.

(** A transport that rejects with an [AbortError], and one that rejects
    with an exception of its own. *)
Definition aborted : Exn :=
  mkExn COtherError "AbortError" "The operation was aborted.".
Definition out_of_memory : Exn :=
  mkExn COtherError "RangeError" "Out of memory".

(** [{ "errors": [] }] and a plain success body. *)
Definition empty_errors_body : Json := JObj [("errors", JArr [])].
Definition posts_body : Json :=
  JObj [("data", JArr []); ("included", JArr []); ("links", JObj [])].

(** A callback that throws. *)
Definition failing_observe : Intercept := fun _ => Some out_of_memory.

(** [{}] under HTTP status 502: an error response whose body is JSON. *)
Definition bad_gateway_response : Response :=
  mkResponse 502 json_headers (inr (JObj [])).

(** [{ "errors": [] }] under HTTP status 200. *)
Definition empty_errors_response : Response :=
  mkResponse 200 json_headers (inr empty_errors_body).

(** [{ endpoint: 'posts', intercept }] with the callback that throws,
    [{ path: '/v10/posts' }] and the query [{ page: { size: 1 } }]. *)
Definition failing_observe_call : FetchOptions :=
  mkFetchOptions None (Some "posts") None None None None (Some failing_observe).
Definition v10_call : FetchOptions :=
  mkFetchOptions (Some "/v10/posts") None None None None None None.
Definition page_one : Query := [("page", QObj [("size", QNum 1)])].

(** [{ path: 'https://local.test/v1/posts?page[number]=2' }]. *)
Definition absolute_next_call : FetchOptions :=
  mkFetchOptions (Some "https://local.test/v1/posts?page[number]=2") None None
    None None None None.

(** An optional string that a condition takes for false. *)
Definition absent_or_empty (s : option string) : Prop :=
  s = None \/ s = Some "".

(** The condition under which [get] wraps a rejection of the transport. *)
Definition is_network_failure (error : Exn) : Prop :=
  exn_class error = CTypeError
  \/ (exn_class error <> CNotAnError /\ exn_name error = "AbortError").

End CallNotions.

(* ================================================================== *)
(** * The category traversal *)

Module CategoryTree.
Import Js Utils.
Local Open Scope list_scope.

(** ** Loops *)

Section ForOf.
Context {A S : Type}.
Variable body : A -> S -> option S.

Lemma for_of_completes (xs : list A) :
  (forall x s, In x xs -> exists s', body x s = Some s') ->
  forall s, exists s', for_of xs body s = Some s'.
Proof.
  induction xs as [|x xs IH]; intros Hbody s; simpl.
  - now exists s.
  - destruct (Hbody x s (or_introl eq_refl)) as [s1 ->].
    apply IH. intros y t Hy. apply Hbody. now right.
Qed.

Lemma for_of_stuck (xs : list A) (x : A) :
  In x xs -> (forall s, body x s = None) ->
  forall s, for_of xs body s = None.
Proof.
  induction xs as [|y xs IH]; intros Hin Hx s; simpl.
  - destruct Hin.
  - destruct Hin as [-> | Hin].
    + now rewrite Hx.
    + destruct (body y s); [now apply IH | reflexivity].
Qed.

End ForOf.

Section Traversal.

Variable categories : list Category.

Lemma child_edge (p : Z) (child : Category) :
  In child (children_of categories p) -> edge categories p (cat_id child).
Proof.
  unfold children_of. rewrite filter_In. intros [Hin Hp].
  now exists child.
Qed.

Lemma edge_child (p c : Z) :
  edge categories p c -> exists child, In child (children_of categories p) /\ cat_id child = c.
Proof.
  intros (cat & Hin & Hp & Hc). exists cat. split; [|exact Hc].
  unfold children_of. now rewrite filter_In.
Qed.

Lemma findChildren_unfold (fuel : nat) (p : Z) (acc : list Z) :
  findChildren (S fuel) categories p acc
  = for_of (children_of categories p) (visit_child categories fuel) acc.
Proof. reflexivity. Qed.

(** *** The accumulator only grows at its end *)

Lemma for_of_shift (fuel : nat) :
  (forall p acc, findChildren fuel categories p acc
                 = option_map (app acc) (findChildren fuel categories p [])) ->
  forall xs acc, for_of xs (visit_child categories fuel) acc
                 = option_map (app acc) (for_of xs (visit_child categories fuel) []).
Proof.
  intros IH xs. induction xs as [|x xs IHxs]; intros acc; simpl.
  - now rewrite app_nil_r.
  - unfold visit_child at 1 3.
    rewrite (IH _ (acc ++ [cat_id x])), (IH _ ([] ++ [cat_id x])).
    destruct (findChildren fuel categories (cat_id x) []) as [r|]; simpl; [|reflexivity].
    rewrite (IHxs ((acc ++ [cat_id x]) ++ r)), (IHxs (cat_id x :: r)).
    destruct (for_of xs (visit_child categories fuel) []) as [t|]; simpl; [|reflexivity].
    now rewrite <- !app_assoc.
Qed.

Lemma findChildren_shift (fuel : nat) (p : Z) (acc : list Z) :
  findChildren fuel categories p acc
  = option_map (app acc) (findChildren fuel categories p []).
Proof.
  revert p acc. induction fuel as [|fuel IH]; intros p acc.
  - reflexivity.
  - rewrite !findChildren_unfold. now apply for_of_shift.
Qed.

(** *** The result is the pre-order listing *)

Lemma for_of_preorder (fuel : nat) :
  (forall p l, findChildren fuel categories p [] = Some l -> preorder categories p l) ->
  forall xs l, for_of xs (visit_child categories fuel) [] = Some l -> preorder_siblings categories xs l.
Proof.
  intros IH xs. induction xs as [|x xs IHxs]; intros l; simpl.
  - intros [= <-]. constructor.
  - unfold visit_child at 1. rewrite findChildren_shift. simpl.
    destruct (findChildren fuel categories (cat_id x) []) as [r|] eqn:Hr; simpl; [|discriminate].
    rewrite for_of_shift by (apply findChildren_shift).
    destruct (for_of xs (visit_child categories fuel) []) as [t|] eqn:Ht; simpl; [|discriminate].
    intros [= <-]. constructor; auto.
Qed.

Lemma findChildren_preorder (fuel : nat) (p : Z) (l : list Z) :
  findChildren fuel categories p [] = Some l -> preorder categories p l.
Proof.
  revert p l. induction fuel as [|fuel IH]; intros p l.
  - discriminate.
  - rewrite findChildren_unfold. intros H. constructor.
    now apply (for_of_preorder fuel IH).
Qed.

Lemma preorder_functional (p : Z) (l : list Z) :
  preorder categories p l -> forall l', preorder categories p l' -> l' = l.
Proof.
  intros H.
  induction H using preorder_mut
    with (P0 := fun xs l _ => forall l', preorder_siblings categories xs l' -> l' = l).
  - intros l' H'. inversion H'; subst. auto.
  - intros l' H'. now inversion H'.
  - intros l' H'. inversion H'; subst.
    f_equal. f_equal; auto.
Qed.

(** *** Termination when no cycle is reachable *)

(** The identifiers on the call stack below the root are pairwise distinct
    identifiers of the list, so the stack is never deeper than the list is
    long.  [stack] holds them; each of them reaches the current [p], and
    the root reaches [p] too, so a repeated identifier would be a cycle
    that the root reaches. *)
Lemma findChildren_returns_below (root : Z)
    (Hroot : ~ reaches_cycle categories root) (fuel : nat) :
  forall (stack : list Z) (p : Z) (acc : list Z),
    NoDup stack ->
    incl stack (map cat_id categories) ->
    clos_refl_trans Z (edge categories) root p ->
    (forall a, In a stack -> clos_refl_trans Z (edge categories) a p) ->
    (List.length categories < fuel + List.length stack)%nat ->
    exists r, findChildren fuel categories p acc = Some r.
Proof.
  induction fuel as [|fuel IH]; intros stack p acc Hnd Hincl Hrp Hreach Hlen.
  - pose proof (NoDup_incl_length Hnd Hincl) as Hle.
    rewrite length_map in Hle. simpl in Hlen. lia.
  - rewrite findChildren_unfold. apply for_of_completes.
    intros child s Hchild. unfold visit_child.
    pose proof (child_edge p child Hchild) as Hedge.
    apply (IH (cat_id child :: stack)).
    + constructor; [|exact Hnd].
      intros Hin. apply Hroot. exists (cat_id child). split.
      * eapply rt_trans; [exact Hrp | now apply rt_step].
      * eapply clos_rt_t; [apply Hreach, Hin | now apply t_step].
    + intros a [<- | Ha]; [|now apply Hincl].
      apply in_map. unfold children_of in Hchild.
      now apply filter_In in Hchild.
    + eapply rt_trans; [exact Hrp | now apply rt_step].
    + intros a [<- | Ha]; [apply rt_refl|].
      eapply rt_trans; [apply Hreach, Ha | now apply rt_step].
    + simpl. lia.
Qed.

Lemma findChildren_returns_safe (p : Z) (acc : list Z) :
  ~ reaches_cycle categories p ->
  exists r, findChildren (S (List.length categories)) categories p acc = Some r.
Proof.
  intros Hp. apply (findChildren_returns_below p Hp _ []).
  - constructor.
  - intros a [].
  - apply rt_refl.
  - intros a [].
  - simpl. lia.
Qed.

Lemma acyclic_no_cycle_reached (Hacyclic : acyclic categories) (p : Z) :
  ~ reaches_cycle categories p.
Proof. intros (x & _ & Hx). exact (Hacyclic x Hx). Qed.

Lemma findChildren_returns (Hacyclic : acyclic categories) (p : Z) (acc : list Z) :
  exists r, findChildren (S (List.length categories)) categories p acc = Some r.
Proof. now apply findChildren_returns_safe, acyclic_no_cycle_reached. Qed.

(** *** A deeper stack does not change a result *)

Lemma for_of_ext {A S : Type} (f g : A -> S -> option S) (xs : list A) :
  (forall x s r, f x s = Some r -> g x s = Some r) ->
  forall s r, for_of xs f s = Some r -> for_of xs g s = Some r.
Proof.
  intros Hfg. induction xs as [|x xs IH]; intros s r; simpl; [auto|].
  destruct (f x s) as [s1|] eqn:Hf; [|discriminate].
  rewrite (Hfg _ _ _ Hf). apply IH.
Qed.

Lemma findChildren_more_fuel (fuel fuel' : nat) (p : Z) (acc r : list Z) :
  (fuel <= fuel')%nat ->
  findChildren fuel categories p acc = Some r ->
  findChildren fuel' categories p acc = Some r.
Proof.
  revert fuel' p acc r.
  induction fuel as [|fuel IH]; intros fuel' p acc r Hle; [discriminate|].
  destruct fuel' as [|fuel']; [lia|].
  rewrite !findChildren_unfold. apply for_of_ext.
  intros x s t. unfold visit_child. apply IH. lia.
Qed.

(** *** No result under a reachable cycle *)

Lemma first_edge (x z : Z) :
  clos_trans Z (edge categories) x z ->
  exists y, edge categories x y /\ clos_refl_trans Z (edge categories) y z.
Proof.
  intros H. apply clos_trans_t1n in H.
  destruct H as [y Hxy | y z Hxy Hyz]; exists y; (split; [exact Hxy|]).
  - apply rt_refl.
  - now apply clos_t_clos_rt, clos_t1n_trans.
Qed.

Lemma reaches_cycle_step (p : Z) :
  reaches_cycle categories p -> exists c, edge categories p c /\ reaches_cycle categories c.
Proof.
  intros (x & Hpx & Hxx).
  apply clos_rt_rt1n in Hpx. inversion Hpx as [Heq | c x' Hpc Hcx]; subst.
  - destruct (first_edge _ _ Hxx) as (y & Hxy & Hyx).
    exists y. split; [exact Hxy|]. now exists x.
  - exists c. split; [exact Hpc|].
    exists x. split; [now apply clos_rt1n_rt | exact Hxx].
Qed.

Lemma findChildren_overflows (fuel : nat) :
  forall p acc, reaches_cycle categories p -> findChildren fuel categories p acc = None.
Proof.
  induction fuel as [|fuel IH]; intros p acc Hp; [reflexivity|].
  rewrite findChildren_unfold.
  destruct (reaches_cycle_step p Hp) as (c & Hedge & Hc).
  destruct (edge_child p c Hedge) as (child & Hin & <-).
  apply (for_of_stuck _ _ child Hin).
  intros s. unfold visit_child. now apply IH.
Qed.

End Traversal.

(** ** [getCategoryChildrenIds] *)

Lemma getCategoryChildrenIds_shift (fuel : nat) (category : Category)
    (categories : list Category) :
  getCategoryChildrenIds fuel category categories
  = option_map (cons (cat_id category))
      (findChildren fuel categories (cat_id category) []).
Proof.
  unfold getCategoryChildrenIds. rewrite findChildren_shift.
  now destruct (findChildren fuel categories (cat_id category) []).
Qed.

(** A ranking that decreases from parent to child excludes cycles. *)
Lemma ranked_acyclic (categories : list Category) (rank : Z -> nat) :
  (forall cat p, In cat categories -> parent_is p cat = true ->
                 (rank (cat_id cat) < rank p)%nat) ->
  acyclic categories.
Proof.
  intros Hrank.
  assert (Hdown : forall x y, clos_trans Z (edge categories) x y ->
                              (rank y < rank x)%nat).
  { intros x y H. induction H as [x y (cat & Hin & Hp & <-) | x y z _ IH1 _ IH2].
    - now apply Hrank.
    - lia. }
  intros x Hx. specialize (Hdown x x Hx). lia.
Qed.

Lemma mockCategories_acyclic : acyclic mockCategories.
Proof.
  apply (ranked_acyclic _
           (fun id => if id =? 1 then 2%nat else
                      if (id =? 2) || (id =? 6) then 1%nat else 0%nat)).
  intros cat p Hin Hp. simpl in Hin.
  repeat (destruct Hin as [<- | Hin];
          [cbv [parent_is category parentCategory rel_id Id_eqb] in Hp;
           first [ discriminate Hp
                 | apply (Z.eqb_eq _ p) in Hp; subst p; simpl; lia ] |]).
  destruct Hin.
Qed.

Example collect_football :
  getCategoryChildrenIds 8 (category 7 (Some 6)) mockCategories = Some [7].
Proof. reflexivity. Qed.

Example collect_programming :
  getCategoryChildrenIds 8 (category 2 (Some 1)) mockCategories = Some [2; 3; 4].
Proof. reflexivity. Qed.

Example collect_tech :
  getCategoryChildrenIds 8 (category 1 None) mockCategories = Some [1; 2; 3; 4; 5].
Proof. reflexivity. Qed.

Example collect_absent :
  getCategoryChildrenIds 8 (category 999 None) mockCategories = Some [999].
Proof. reflexivity. Qed.

Lemma orphan_children_acyclic : acyclic orphan_children.
Proof.
  apply (ranked_acyclic _ (fun id => if id =? 1 then 1%nat else 0%nat)).
  intros cat p [<- | []] Hp.
  cbv [parent_is category parentCategory rel_id Id_eqb] in Hp.
  apply (Z.eqb_eq _ p) in Hp. subst p. simpl. lia.
Qed.

Lemma cyclic_pair_reaches_cycle : reaches_cycle cyclic_pair 1.
Proof.
  exists 1. split; [apply rt_refl|].
  apply t_trans with (y := 2); apply t_step.
  - exists (category 2 (Some 1)). simpl. auto.
  - exists (category 1 (Some 2)). simpl. auto.
Qed.

(** C7, as stated, fails: the category with identifier 1 does not appear in
    the list [orphan_children] (no element is that category, and none has
    its identifier), the list is acyclic, and yet the result is [1; 2] and
    never the singleton [1], because the one category of the list points to
    identifier 1. *)
Lemma collect_absent_not_singleton :
  acyclic orphan_children
  /\ ~ In orphan_parent orphan_children
  /\ (forall cat, In cat orphan_children -> cat_id cat <> cat_id orphan_parent)
  /\ getCategoryChildrenIds 2 orphan_parent orphan_children = Some [1; 2]
  /\ (forall fuel, getCategoryChildrenIds fuel orphan_parent orphan_children
                   <> Some [cat_id orphan_parent]).
Proof.
  split; [exact orphan_children_acyclic|].
  split; [intros [H | []]; discriminate H|].
  split; [intros cat [<- | []]; discriminate|].
  split; [reflexivity|].
  intros fuel H.
  destruct (Nat.le_gt_cases 2 fuel) as [Hle | Hlt].
  - pose proof (findChildren_more_fuel orphan_children 2 fuel 1 [1] [1; 2]
                  Hle eq_refl) as Hdeep.
    unfold getCategoryChildrenIds in H. change (cat_id orphan_parent) with 1 in H.
    rewrite Hdeep in H. discriminate H.
  - destruct fuel as [|[|fuel]]; [discriminate H | discriminate H | lia].
Qed.

(** C7 (amended).  For every category and every acyclic list,
    [getCategoryChildrenIds] returns the identifier of the category first,
    whether or not the category appears in the list, followed by the
    pre-order listing of its descendants: the categories whose parent
    pointer carries the visited identifier, in list order, each followed by
    its own descendants before the next sibling.  That listing is unique,
    and the result is the singleton exactly when no category of the list
    points to the identifier of the starting category. *)
Theorem collect_preorder (category : Category) (categories : list Category) :
  acyclic categories ->
  exists l,
    getCategoryChildrenIds (S (List.length categories)) category categories
    = Some (cat_id category :: l)
    /\ preorder categories (cat_id category) l
    /\ (forall l', preorder categories (cat_id category) l' -> l' = l)
    /\ (l = [] <-> children_of categories (cat_id category) = []).
Proof.
  intros Hacyclic.
  destruct (findChildren_returns categories Hacyclic (cat_id category) [])
    as [l Hl].
  exists l. rewrite getCategoryChildrenIds_shift, Hl.
  pose proof (findChildren_preorder _ _ _ _ Hl) as Hpre.
  split; [reflexivity|]. split; [exact Hpre|].
  split; [now apply preorder_functional|].
  inversion Hpre as [p l0 Hsib]; subst.
  split.
  - intros ->. now inversion Hsib.
  - intros Hnone. rewrite Hnone in Hsib. now inversion Hsib.
Qed.

Lemma collect_preorder_witness :
  acyclic mockCategories /\
  exists l,
    getCategoryChildrenIds (S (List.length mockCategories)) (category 1 None)
      mockCategories = Some (cat_id (category 1 None) :: l)
    /\ preorder mockCategories (cat_id (category 1 None)) l
    /\ (forall l', preorder mockCategories (cat_id (category 1 None)) l' -> l' = l)
    /\ (l = [] <-> children_of mockCategories (cat_id (category 1 None)) = []).
Proof.
  split.
  - exact mockCategories_acyclic.
  - apply (collect_preorder (category 1 None) mockCategories).
    exact mockCategories_acyclic.
Defined.

Lemma unparented_reaches_no_cycle :
  ~ reaches_cycle cyclic_pair (cat_id (category 9 None)).
Proof.
  assert (Hnone : forall y, ~ edge cyclic_pair 9 y).
  { intros y (cat & Hin & Hp & _).
    destruct Hin as [<- | [<- | []]]; discriminate Hp. }
  intros (x & Hreach & Hcycle).
  apply clos_rt_rt1n in Hreach.
  inversion Hreach as [Heq | y z Hedge _]; subst.
  - destruct (first_edge _ _ _ Hcycle) as (y & Hedge & _).
    exact (Hnone y Hedge).
  - exact (Hnone y Hedge).
Qed.

(** C8.  On a list whose parent pointers are acyclic the traversal returns:
    a call stack deeper than the list is long is enough, and the result does
    not depend on the depth available beyond that.  No set of visited
    identifiers is kept: when the chain of parent pointers followed from the
    starting identifier runs into a cycle, no depth is enough and the call
    never returns.  These are the only two cases: the call returns whenever
    no cycle can be reached from the starting identifier. *)
Theorem collect_terminates (category : Category) (categories : list Category) :
  (acyclic categories ->
   exists r, forall fuel, (List.length categories < fuel)%nat ->
     getCategoryChildrenIds fuel category categories = Some r)
  /\ (reaches_cycle categories (cat_id category) ->
      forall fuel, getCategoryChildrenIds fuel category categories = None)
  /\ (~ reaches_cycle categories (cat_id category) ->
      exists r, forall fuel, (List.length categories < fuel)%nat ->
        getCategoryChildrenIds fuel category categories = Some r).
Proof.
  assert (Hsafe : ~ reaches_cycle categories (cat_id category) ->
                  exists r, forall fuel, (List.length categories < fuel)%nat ->
                    getCategoryChildrenIds fuel category categories = Some r).
  { intros Hno.
    destruct (findChildren_returns_safe categories (cat_id category)
                [cat_id category] Hno) as [r Hr].
    exists r. intros fuel Hfuel. unfold getCategoryChildrenIds.
    apply (findChildren_more_fuel categories (S (List.length categories)));
      [lia | exact Hr]. }
  split; [|split].
  - intros Hacyclic. now apply Hsafe, acyclic_no_cycle_reached.
  - intros Hcycle fuel. unfold getCategoryChildrenIds.
    now apply findChildren_overflows.
  - exact Hsafe.
Qed.

Lemma collect_terminates_witness :
  (acyclic mockCategories /\
   exists r, forall fuel, (List.length mockCategories < fuel)%nat ->
     getCategoryChildrenIds fuel (category 2 (Some 1)) mockCategories = Some r)
  /\ (reaches_cycle cyclic_pair (cat_id (category 1 (Some 2))) /\
      forall fuel,
        getCategoryChildrenIds fuel (category 1 (Some 2)) cyclic_pair = None)
  /\ (~ reaches_cycle cyclic_pair (cat_id (category 9 None)) /\
      exists r, forall fuel, (List.length cyclic_pair < fuel)%nat ->
        getCategoryChildrenIds fuel (category 9 None) cyclic_pair = Some r).
Proof.
  split; [|split]; split.
  - exact mockCategories_acyclic.
  - apply (proj1 (collect_terminates (category 2 (Some 1)) mockCategories)).
    exact mockCategories_acyclic.
  - exact cyclic_pair_reaches_cycle.
  - apply (proj1 (proj2 (collect_terminates (category 1 (Some 2)) cyclic_pair))).
    exact cyclic_pair_reaches_cycle.
  - exact unparented_reaches_no_cycle.
  - apply (proj2 (proj2 (collect_terminates (category 9 None) cyclic_pair))).
    exact unparented_reaches_no_cycle.
Defined.

End CategoryTree.

(* ================================================================== *)
(** * The media URL *)

Module MediaUrl.
Import Js Utils.

(** The scenarios of the test suite. *)
Example url_cover_1200 :
  getMediaUrl (mkOptions test_domain mockImage (Some Fcover) (Some 1200) None None None)
  = Return "https://xxx.staticbtf.eno.do/v1/123-cover-1200/abc123cover/media".
Proof. reflexivity. Qed.

Example url_thumb_slug :
  getMediaUrl (mkOptions test_domain mockImage (Some Fthumb) (Some 300)
                 (Some "mon-image-test") None None)
  = Return "https://xxx.staticbtf.eno.do/v1/123-thumb-300/abc123thumb/mon-image-test".
Proof. reflexivity. Qed.

Example url_video_hd :
  getMediaUrl (mkOptions test_domain mockVideo (Some Fsource) (Some 1920)
                 (Some "my-video") (Some Emp4) (Some Dhd))
  = Return "https://xxx.staticbtf.eno.do/v1/456-source-hd/def456source/my-video.mp4".
Proof. reflexivity. Qed.

Example url_no_width :
  getMediaUrl (mkOptions test_domain mockImage (Some Fdefault) None
                 (Some "my-image") None None)
  = Return "https://xxx.staticbtf.eno.do/v1/123-default/abc123default/my-image".
Proof. reflexivity. Qed.

Example url_gif_cover_throws :
  getMediaUrl (mkOptions test_domain gifImage (Some Fcover) (Some 800) None
                 (Some Egif) None)
  = Throw "[BTF-MEDIA] GIF images must use 'source' format".
Proof. reflexivity. Qed.

Example url_gif_source :
  getMediaUrl (mkOptions test_domain gifImage (Some Fsource) (Some 800) None
                 (Some Egif) None)
  = Return "https://xxx.staticbtf.eno.do/v1/123-source-800/abc123source/media.gif".
Proof. reflexivity. Qed.

Example url_video_thumb_mp4_throws :
  getMediaUrl (mkOptions test_domain mockVideo (Some Fthumb) (Some 300) None
                 (Some Emp4) None)
  = Throw "[BTF-MEDIA] Format 'thumb' is not allowed for video with ext .mp4. Use 'default' or 'source'.".
Proof. reflexivity. Qed.

Example url_audio_no_definition_throws :
  getMediaUrl (mkOptions test_domain mockAudio (Some Fdefault) None None
                 (Some Emp3) None)
  = Throw "[BTF-MEDIA] audio requires 'definition' parameter for extension .mp3".
Proof. reflexivity. Qed.

Example url_video_preview :
  getMediaUrl (mkOptions test_domain mockVideo (Some Fcover) (Some 800) None
                 (Some Ejpg) None)
  = Return "https://xxx.staticbtf.eno.do/v1/456-cover-800/def456cover/media.jpg".
Proof. reflexivity. Qed.

Lemma getMediaUrl_cases (o : GetMediaUrlOptions) :
  if rejected o then exists m, getMediaUrl o = Throw m
  else getMediaUrl o = Return (assembled o).
Proof.
  unfold rejected, getMediaUrl, assembled, chosen_format, chosen_slug,
    Utils.bind, throw_if.
  destruct (is_playable_ext (ext o));
    destruct (is_video_or_audio (media_type (media o)));
    destruct (is_default_or_source
                match format o with Some f => f | None => Fdefault end);
    destruct (definition o);
    destruct (String.eqb (mimetype (media o)) "image/gif");
    destruct (is_gif_ext (ext o));
    destruct (MediaFormat_eqb
                match format o with Some f => f | None => Fdefault end Fsource);
    cbn [negb andb orb];
    first [ eexists; reflexivity
          | destruct (width o); reflexivity ].
Qed.

Lemma playable_iff (e : option MediaExtension) :
  is_playable_ext e = true <-> playable e.
Proof.
  unfold playable. destruct e as [[]|]; simpl; split; intros H;
    try reflexivity; try discriminate H; auto;
    destruct H as [H | H]; discriminate H.
Qed.

Lemma video_or_audio_iff (t : MediaType) :
  is_video_or_audio t = true <-> video_or_audio t.
Proof.
  unfold video_or_audio. destruct t; simpl; split; intros H;
    try reflexivity; try discriminate H; auto;
    destruct H as [H | H]; discriminate H.
Qed.

Lemma default_or_source_iff (f : MediaFormat) :
  is_default_or_source f = false <-> f <> Fdefault /\ f <> Fsource.
Proof.
  destruct f; simpl; split; intros H; try reflexivity; try discriminate H;
    try (split; discriminate); destruct H as [H1 H2]; congruence.
Qed.

Lemma not_source_iff (f : MediaFormat) :
  MediaFormat_eqb f Fsource = false <-> f <> Fsource.
Proof.
  destruct f; simpl; split; intros H; try reflexivity; try discriminate H;
    try discriminate; congruence.
Qed.

Lemma is_gif_iff (e : option MediaExtension) :
  is_gif_ext e = true <-> e = Some Egif.
Proof.
  destruct e as [[]|]; simpl; split; intros H; try reflexivity;
    discriminate H.
Qed.

Lemma rejected_iff (o : GetMediaUrlOptions) :
  rejected o = true <->
  wrong_type_for_playable o \/ wrong_format_for_playable o
  \/ missing_definition o \/ gif_not_source o.
Proof.
  unfold rejected, wrong_type_for_playable, wrong_format_for_playable,
    missing_definition, gif_not_source.
  rewrite <- playable_iff, <- video_or_audio_iff, <- default_or_source_iff,
    <- not_source_iff, <- is_gif_iff, <- String.eqb_eq.
  destruct (is_playable_ext (ext o));
    destruct (is_video_or_audio (media_type (media o)));
    destruct (is_default_or_source (chosen_format o));
    destruct (definition o);
    destruct (String.eqb (mimetype (media o)) "image/gif");
    destruct (is_gif_ext (ext o));
    destruct (MediaFormat_eqb (chosen_format o) Fsource);
    cbn [negb andb orb]; intuition congruence.
Qed.

(** C2.  [getMediaUrl] throws exactly when the extension is mp4 or mp3 and
    the media is neither a video nor an audio, or the extension is mp4 or
    mp3 on a video or audio and the format is neither [default] nor
    [source], or the extension is mp4 or mp3 on a video or audio and no
    definition is given, or the mime type is [image/gif], the extension is
    gif and the format is not [source].  In particular a jpg rendition of
    any media without a definition is returned. *)
Theorem getMediaUrl_throws_iff :
  (forall o : GetMediaUrlOptions,
     (exists m, getMediaUrl o = Throw m) <->
     wrong_type_for_playable o \/ wrong_format_for_playable o
     \/ missing_definition o \/ gif_not_source o)
  /\ (forall domain media format width slug,
        exists url,
          getMediaUrl (mkOptions domain media format width slug (Some Ejpg) None)
          = Return url).
Proof.
  split.
  - intros o. rewrite <- rejected_iff.
    pose proof (getMediaUrl_cases o) as Hcases.
    destruct (rejected o); split; intros H.
    + reflexivity.
    + exact Hcases.
    + destruct H as [m Hm]. congruence.
    + discriminate H.
  - intros domain media format width slug.
    pose proof (getMediaUrl_cases
                  (mkOptions domain media format width slug (Some Ejpg) None))
      as Hcases.
    unfold rejected in Hcases. cbn [ext is_playable_ext is_gif_ext andb orb] in Hcases.
    rewrite Bool.andb_false_r in Hcases. cbn [andb orb] in Hcases.
    eexists. exact Hcases.
Qed.

End MediaUrl.

(* ================================================================== *)
(** * Related resources *)

Module RelatedResource.
Import Js Utils.
Local Open Scope list_scope.

Lemma Id_eqb_eq (a b : Id) : Id_eqb a b = true <-> a = b.
Proof.
  destruct a as [x | x], b as [y | y]; simpl.
  - rewrite Z.eqb_eq. split; congruence.
  - split; discriminate.
  - split; discriminate.
  - rewrite String.eqb_eq. split; congruence.
Qed.

Section Pool.
Context {P : Type}.

Lemma matches_iff (related : Related) (resource : Resource P) :
  matches related resource = true <-> same_identity related resource.
Proof.
  unfold matches, same_identity.
  now rewrite Bool.andb_true_iff, Id_eqb_eq, String.eqb_eq.
Qed.

Lemma matches_false_iff (related : Related) (resource : Resource P) :
  matches related resource = false <-> ~ same_identity related resource.
Proof.
  rewrite <- matches_iff. destruct (matches related resource); split;
    congruence.
Qed.

(** [find] returns the first element on which the predicate holds. *)
Lemma find_first (f : Resource P -> bool) (l : list (Resource P))
    (x : Resource P) :
  List.find f l = Some x <->
  exists before after,
    l = before ++ x :: after /\ f x = true
    /\ forall y, In y before -> f y = false.
Proof.
  induction l as [|a l IH]; simpl.
  - split; [discriminate|].
    intros (before & after & H & _). now destruct before.
  - destruct (f a) eqn:Ha.
    + split.
      * intros [= <-]. exists [], l. repeat split; auto. intros y [].
      * intros (before & after & H & Hx & Hbefore).
        destruct before as [|b before]; simpl in H; injection H as <- Hl.
        -- reflexivity.
        -- rewrite (Hbefore a (or_introl eq_refl)) in Ha. discriminate Ha.
    + rewrite IH. split.
      * intros (before & after & -> & Hx & Hbefore).
        exists (a :: before), after. repeat split; auto.
        intros y [<- | Hy]; auto.
      * intros (before & after & H & Hx & Hbefore).
        destruct before as [|b before]; simpl in H; injection H as <- Hl.
        -- congruence.
        -- exists before, after. repeat split; auto.
           intros y Hy. apply Hbefore. now right.
Qed.

Lemma find_nothing (f : Resource P -> bool) (l : list (Resource P)) :
  List.find f l = None <-> forall y, In y l -> f y = false.
Proof.
  split.
  - apply find_none.
  - intros H. destruct (List.find f l) as [x|] eqn:Hx; [|reflexivity].
    apply find_some in Hx. destruct Hx as [Hin Hfx].
    rewrite (H x Hin) in Hfx. discriminate Hfx.
Qed.

(** C9.  [getRelated] is a total function: it returns nothing for a null
    pointer; for a pointer it returns nothing exactly when no resource of
    the pool has the identifier and the type of the pointer, and otherwise
    the first resource of the pool, in list order, that has both. *)
Theorem getRelated_first (included : list (Resource P)) :
  getRelated None included = None
  /\ forall related : Related,
       (getRelated (Some related) included = None <->
        forall resource, In resource included -> ~ same_identity related resource)
       /\ (forall resource,
             getRelated (Some related) included = Some resource <->
             exists before after,
               included = before ++ resource :: after
               /\ same_identity related resource
               /\ forall other, In other before -> ~ same_identity related other).
Proof.
  split; [reflexivity|].
  intros related. simpl. split.
  - rewrite find_nothing. split; intros H x Hx.
    + now apply matches_false_iff, H.
    + now apply matches_false_iff, H.
  - intros resource. rewrite find_first. split.
    + intros (before & after & Hl & Hx & Hbefore).
      exists before, after. split; [exact Hl|].
      split; [now apply matches_iff|].
      intros y Hy. now apply matches_false_iff, Hbefore.
    + intros (before & after & Hl & Hx & Hbefore).
      exists before, after. split; [exact Hl|].
      split; [now apply matches_iff|].
      intros y Hy. now apply matches_false_iff, Hbefore.
Qed.

End Pool.

(** The scenarios of the test suite, on a pool of three resources. *)
Example related_found :
  getRelated (Some (mkRelated (IdNum 456) "category"))
    [mkResource (IdNum 123) "image" 1%nat; mkResource (IdNum 456) "category" 2%nat;
     mkResource (IdNum 789) "post" 3%nat]
  = Some (mkResource (IdNum 456) "category" 2%nat).
Proof. reflexivity. Qed.

Example related_type_mismatch :
  getRelated (Some (mkRelated (IdNum 123) "video"))
    [mkResource (IdNum 123) "image" 1%nat; mkResource (IdNum 456) "category" 2%nat;
     mkResource (IdNum 789) "post" 3%nat]
  = None.
Proof. reflexivity. Qed.

End RelatedResource.

(* ================================================================== *)
(** * The dispatch of a request *)

Module Dispatch.
Import Js Errors Client.

(** ** The monad of calls *)

Lemma bind_ret_l {A B : Type} (a : A) (k : A -> M B) : bind (ret a) k = k a.
Proof. unfold bind, ret. now destruct (k a). Qed.

Lemma bind_throw_l {A B : Type} (e : Thrown) (k : A -> M B) :
  bind (throw e) k = throw e.
Proof. reflexivity. Qed.

Lemma when_false (body : M unit) : when false body = ret tt.
Proof. reflexivity. Qed.

Lemma when_true_throw {B : Type} (e : Thrown) (k : unit -> M B) :
  bind (when true (throw e)) k = throw e.
Proof. reflexivity. Qed.

(** ** Strings *)

Lemma prefix_app (p s : string) : String.prefix p (p ++ s) = true.
Proof.
  induction p as [|c p IH]; simpl.
  - now destruct s.
  - destruct (ascii_dec c c) as [_ | Hc]; [exact IH | now destruct Hc].
Qed.

Lemma drop_app (p s : string) : drop (String.length p) (p ++ s) = s.
Proof. induction p as [|c p IH]; simpl; [now destruct s | exact IH]. Qed.

Lemma string_truthy_iff (s : string) : string_truthy s = true <-> s <> "".
Proof.
  unfold string_truthy. destruct (String.eqb_spec s ""); simpl; split;
    congruence.
Qed.

Lemma replace_eq (pat rep s : string) :
  replace pat rep s
  = if String.prefix pat s then rep ++ drop (String.length pat) s
    else match s with
         | EmptyString => EmptyString
         | String c s' => String c (replace pat rep s')
         end.
Proof. now destruct s. Qed.

(** [replace] rewrites the first occurrence of the pattern and copies what
    follows it, further occurrences included. *)
Lemma replace_first_occurrence (pat rep a b : string) :
  (forall k, (k < String.length a)%nat ->
             String.prefix pat (drop k (a ++ pat ++ b)) = false) ->
  replace pat rep (a ++ pat ++ b) = a ++ rep ++ b.
Proof.
  induction a as [|c a IH]; intros Hfirst.
  - change ("" ++ pat ++ b) with (pat ++ b).
    now rewrite replace_eq, prefix_app, drop_app.
  - pose proof (Hfirst 0%nat) as H0. cbn [drop] in H0.
    rewrite replace_eq, H0 by (simpl; lia).
    cbn [append]. f_equal. apply IH. intros k Hk.
    apply (Hfirst (S k)). simpl. lia.
Qed.

(** ** One call *)

Section Calls.

Variable qs_stringify : Query -> string.
Variable StringToNumber : string -> option Z.

Local Abbreviation get := (Client.get qs_stringify StringToNumber).
Local Abbreviation resolve_url := (Client.resolve_url qs_stringify).
Local Abbreviation classify := (Client.classify StringToNumber).

Lemma get_steps (this : Client) (o : FetchOptions) :
  get this o
  = bind (resolve_url this o)
      (fun url =>
         bind (call_fetch (match fetch o with Some f => f | None => fetcher this end)
                 url (mkInit (request_headers this) (signal o)))
           (after_response StringToNumber o)).
Proof. reflexivity. Qed.

(** The URL is resolved without any effect, and fails only as a usage error. *)
Lemma resolve_url_pure (this : Client) (o : FetchOptions) :
  (exists m, resolve_url this o = throw (PlainError m))
  \/ (exists url, resolve_url this o = ret url).
Proof.
  unfold Client.resolve_url.
  destruct (if_string (path o)) as [p|].
  - destruct (startsWith p ("/" ++ apiVersion this)); simpl.
    + right. eexists. reflexivity.
    + left. eexists. reflexivity.
  - destruct (if_string (endpoint o)) as [e|].
    + right. destruct (if_Id (id o)); eexists; reflexivity.
    + left. eexists. reflexivity.
Qed.

Lemma new_ApiError_cases (st title details : JsVal) :
  (exists d, new_ApiError st title details = ApiError st title (Some d))
  \/ new_ApiError st title details = Propagated cannot_convert.
Proof.
  unfold new_ApiError.
  destruct (template st); [destruct (template title)|]; auto.
  left. destruct details; eexists; reflexivity.
Qed.

Lemma new_RedirectError_cases (st location : JsVal) :
  new_RedirectError st location = RedirectError st location
  \/ new_RedirectError st location = Propagated cannot_convert.
Proof.
  unfold new_RedirectError.
  destruct (template st); [destruct (template location)|]; auto.
Qed.

(** The classification has no effect either, and fails only as a redirect,
    as an API failure, or with the [TypeError] of a failed conversion. *)
Lemma classify_pure (res : Response) (data : Json) :
  classify res data = ret data
  \/ (exists st loc, classify res data = throw (RedirectError st loc))
  \/ (exists st title details, classify res data = throw (ApiError st title details))
  \/ classify res data = throw (Propagated cannot_convert).
Proof.
  unfold Client.classify.
  destruct (isApiErrorResponse data && negb (Nat.eqb (List.length (errors_of data)) 0)).
  - right. destruct (errors_of data) as [|err rest].
    + right. left. do 3 eexists. reflexivity.
    + destruct (truthy err); cbn [negb when];
        [|right; left; do 3 eexists; reflexivity].
      rewrite bind_ret_l.
      pose proof (new_ApiError_cases (get_prop err "status")
                    (get_prop err "title") (get_prop err "detail")) as Hapi.
      destruct (js_ge StringToNumber (get_prop err "status") 300) as [[|]|];
        cbn [compare]; rewrite ?bind_ret_l, ?bind_throw_l;
        [| | now right; right].
      * destruct (js_lt StringToNumber (get_prop err "status") 400) as [[|]|];
          cbn [compare]; rewrite ?bind_ret_l, ?bind_throw_l;
          [| | now right; right].
        -- cbn [when]. rewrite bind_throw_l.
           destruct (new_RedirectError_cases (get_prop err "status")
                       (get_prop err "detail")) as [-> | ->];
             [left; do 2 eexists; reflexivity | now right; right].
        -- cbn [when]. rewrite bind_ret_l, bind_throw_l.
           destruct Hapi as [[d ->] | ->];
             [right; left; do 3 eexists; reflexivity | now right; right].
      * cbn [when]. rewrite bind_ret_l, bind_throw_l.
        destruct Hapi as [[d ->] | ->];
          [right; left; do 3 eexists; reflexivity | now right; right].
  - rewrite when_false, bind_ret_l.
    destruct (ok res); cbn [negb when].
    + left. now rewrite bind_ret_l.
    + right. right. left. do 3 eexists. reflexivity.
Qed.

(** What [get] does with a response. *)
Lemma get_after_response (this : Client) (o : FetchOptions) (url : string)
    (res : Response) :
  resolve_url this o = ret url ->
  (match fetch o with Some f => f | None => fetcher this end)
    url (mkInit (request_headers this) (signal o)) = inr res ->
  get this o
  = bind ([EvFetch url (mkInit (request_headers this) (signal o))], inr res)
      (after_response StringToNumber o).
Proof.
  intros Hurl Hres. rewrite get_steps, Hurl, bind_ret_l.
  unfold call_fetch. now rewrite Hres.
Qed.

(** C10.  When a non-empty path is supplied, the endpoint, the identifier
    and the query have no influence on the call: any other choice of them
    gives the same events and the same outcome, the URL is the domain
    followed by the path with no query string, and it is requested when the
    path starts with the version prefix. *)
Theorem path_overrides_endpoint (this : Client) (o : FetchOptions)
    (p : string) (endpoint : option string) (id : option Id)
    (query : option Query) :
  path o = Some p -> p <> "" ->
  get this (with_form o endpoint id query) = get this o
  /\ resolve_url this o
     = (if startsWith p ("/" ++ apiVersion this)
        then ret (domain this ++ p)
        else throw (PlainError ("[BTF-API] Invalid path : must starts with '/"
                                ++ apiVersion this ++ "', got '" ++ p ++ "'")))
  /\ (startsWith p ("/" ++ apiVersion this) = true ->
      exists rest,
        fst (get this o)
        = EvFetch (domain this ++ p) (mkInit (request_headers this) (signal o))
            :: rest).
Proof.
  intros Hpath Hp.
  assert (Hif : if_string (path o) = Some p).
  { rewrite Hpath. unfold if_string.
    now rewrite (proj2 (string_truthy_iff p) Hp). }
  assert (Hurl : resolve_url this o
                 = (if startsWith p ("/" ++ apiVersion this)
                    then ret (domain this ++ p)
                    else throw (PlainError
                                  ("[BTF-API] Invalid path : must starts with '/"
                                   ++ apiVersion this ++ "', got '" ++ p ++ "'")))).
  { unfold Client.resolve_url. rewrite Hif.
    now destruct (startsWith p ("/" ++ apiVersion this)). }
  split; [|split].
  - rewrite !get_steps.
    assert (Hsame : resolve_url this (with_form o endpoint id query)
                    = resolve_url this o).
    { unfold Client.resolve_url.
      change (path (with_form o endpoint id query)) with (path o).
      now rewrite Hif. }
    now rewrite Hsame.
  - exact Hurl.
  - intros Hprefix. rewrite get_steps, Hurl, Hprefix, bind_ret_l.
    unfold call_fetch.
    destruct ((match fetch o with Some f => f | None => fetcher this end)
                (domain this ++ p) (mkInit (request_headers this) (signal o)))
      as [error | res].
    + destruct (instanceof_TypeError error
                || instanceof_Error error && String.eqb (exn_name error) "AbortError");
        eexists; reflexivity.
    + unfold bind.
      destruct (after_response StringToNumber o res) as [t r].
      eexists. reflexivity.
Qed.


(** What the code does with a body that is not valid JSON: when the
    transport resolves with such a response and the observation callback
    (if any) returns, the call fails with the exception of the body reader
    itself, unchanged, whatever the status of the response. *)
Theorem invalid_body_propagates (this : Client) (o : FetchOptions)
    (url : string) (res : Response) (e : Exn) :
  resolve_url this o = ret url ->
  (match fetch o with Some f => f | None => fetcher this end)
    url (mkInit (request_headers this) (signal o)) = inr res ->
  (forall cb, intercept o = Some cb -> cb res = None) ->
  json res = inl e ->
  get this o
  = ((EvFetch url (mkInit (request_headers this) (signal o))
      :: match intercept o with
         | Some _ => [EvIntercept res; EvJson res]
         | None => [EvJson res]
         end)%list,
     inl (Propagated e)).
Proof.
  intros Hurl Hres Hcb Hjson.
  rewrite (get_after_response this o url res Hurl Hres).
  unfold after_response, call_intercept, call_json, bind, ret.
  rewrite Hjson.
  destruct (intercept o) as [cb|].
  - now rewrite (Hcb cb eq_refl).
  - reflexivity.
Qed.

(** C5 (amended).  With an observation callback supplied, a call that fails
    as a redirect or as an API failure has invoked the callback first, with
    the response the transport resolved with and before the body was read;
    a call that fails as a usage error or as a transport failure has not
    invoked it, since there is no response then. *)
Theorem intercept_before_classification (this : Client) (o : FetchOptions)
    (cb : Intercept) (trace : list Event) (outcome : Thrown + Json) :
  intercept o = Some cb ->
  get this o = (trace, outcome) ->
  (((exists st loc, outcome = inl (RedirectError st loc))
    \/ (exists st title details, outcome = inl (ApiError st title details))) ->
   exists url res,
     (match fetch o with Some f => f | None => fetcher this end)
       url (mkInit (request_headers this) (signal o)) = inr res
     /\ trace = [EvFetch url (mkInit (request_headers this) (signal o));
                 EvIntercept res; EvJson res])
  /\ (((exists m, outcome = inl (PlainError m))
       \/ (exists error, outcome = inl (NetworkError error))) ->
      intercepted trace = false).
Proof.
  intros Hcb Hget. rewrite get_steps in Hget.
  destruct (resolve_url_pure this o) as [[m Hm] | [url Hurl]].
  - rewrite Hm, bind_throw_l in Hget. injection Hget as <- <-.
    split; [|reflexivity].
    intros [(st & loc & H) | (st & t & d & H)]; discriminate H.
  - rewrite Hurl, bind_ret_l in Hget. unfold call_fetch in Hget.
    destruct ((match fetch o with Some f => f | None => fetcher this end)
                url (mkInit (request_headers this) (signal o)))
      as [error | res] eqn:Hres.
    + destruct (instanceof_TypeError error
                || instanceof_Error error && String.eqb (exn_name error) "AbortError");
        injection Hget as <- <-; (split; [|reflexivity]);
        intros [(st & loc & H) | (st & t & d & H)]; discriminate H.
    + unfold after_response, call_intercept, call_json in Hget.
      unfold bind at 1 2 in Hget. rewrite Hcb in Hget.
      destruct (cb res) as [thrown|].
      * injection Hget as <- <-. split.
        -- intros [(st & loc & H) | (st & t & d & H)]; discriminate H.
        -- intros [(m & H) | (err & H)]; discriminate H.
      * destruct (json res) as [bad | data].
        -- injection Hget as <- <-. split.
           ++ intros [(st & loc & H) | (st & t & d & H)]; discriminate H.
           ++ intros [(m & H) | (err & H)]; discriminate H.
        -- unfold bind in Hget.
           destruct (classify_pure res data)
             as [Hc | [(st & loc & Hc) | [(st & t & d & Hc) | Hc]]];
             rewrite Hc in Hget; unfold ret, throw in Hget;
             cbn [app] in Hget; injection Hget as <- <-; (split;
               [ intros _; exists url, res; split; [exact Hres | reflexivity]
               | intros [(m & H) | (err & H)]; discriminate H ]).
Qed.

(** Whatever the serializer, [qstr] rewrites the first [%2523] of the
    serialized query and copies the rest of it. *)
Lemma qstr_first_occurrence (q : Query) (a b : string) :
  qs_stringify q = a ++ "%2523" ++ b ->
  (forall k, (k < String.length a)%nat ->
             String.prefix "%2523" (drop k (a ++ "%2523" ++ b)) = false) ->
  qstr qs_stringify (Some q) = "?" ++ a ++ "%23" ++ b.
Proof.
  intros Hq Hfirst. unfold qstr. rewrite Hq.
  now rewrite replace_first_occurrence.
Qed.

End Calls.

(** ** Evaluation on the fixtures *)

Lemma path_overrides_endpoint_witness :
  path both_forms_call = Some "/v1/posts?page[number]=2"
  /\ "/v1/posts?page[number]=2" <> ""
  /\ get qs_stringify_model StringToNumber_digits
       (local_client (respond not_found_response))
       (with_form both_forms_call None None None)
     = get qs_stringify_model StringToNumber_digits
         (local_client (respond not_found_response)) both_forms_call.
Proof.
  split; [reflexivity|]. split; [discriminate|].
  apply (path_overrides_endpoint qs_stringify_model StringToNumber_digits
           (local_client (respond not_found_response)) both_forms_call
           "/v1/posts?page[number]=2" None None None).
  - reflexivity.
  - discriminate.
Defined.

Example both_forms_url :
  fst (get qs_stringify_model StringToNumber_digits
         (local_client (respond not_found_response)) both_forms_call)
  = [EvFetch "https://local.test/v1/posts?page[number]=2"
       (mkInit [("Accept", "application/json")] None);
     EvJson not_found_response].
Proof. reflexivity. Qed.

(** The entry that the specification calls missing: on the body
    [{ "errors": [null] }] under HTTP status 500 the call fails as an API
    failure that carries the raw status and the title [Unknown error]. *)
Example null_entry_is_unknown_error :
  classify StringToNumber_digits null_entry_response null_entry_body
  = throw (ApiError (Some (JNum 500)) (Some (JStr "Unknown error"))
             (Some (JStr ""))).
Proof. reflexivity. Qed.


Example not_found_is_api_failure :
  snd (get qs_stringify_model StringToNumber_digits
         (local_client (respond not_found_response)) posts_call)
  = inl (ApiError (Some (JNum 404)) (Some (JStr "Not Found"))
           (Some (JStr "No such post"))).
Proof. reflexivity. Qed.

Example redirect_under_status_200 :
  snd (get qs_stringify_model StringToNumber_digits
         (local_client (respond moved_response)) posts_call)
  = inl (RedirectError (Some (JNum 301)) (Some (JStr "/v1/posts/2"))).
Proof. reflexivity. Qed.

(** C4, evaluated on a response with status 502 whose body is an HTML
    page: the call fails with the [SyntaxError] of the body reader, not with
    the API failure carrying the status 502 that the claim, the
    documentation of [get] and the README promise for an error response, and
    that the code does raise, through its [!res.ok] branch, for the same
    status with a body that is valid JSON. *)
Theorem invalid_body_is_not_api_failure :
  snd (get qs_stringify_model StringToNumber_digits
         (local_client (respond html_response)) posts_call)
  = inl (Propagated unexpected_token)
  /\ snd (get qs_stringify_model StringToNumber_digits
            (local_client (respond html_response)) posts_call)
     <> inl (ApiError (Some (JNum 502)) (Some (JStr "Unknown error"))
               (Some (JStr "")))
  /\ snd (get qs_stringify_model StringToNumber_digits
            (local_client (respond CallNotions.bad_gateway_response)) posts_call)
     = inl (ApiError (Some (JNum 502)) (Some (JStr "Unknown error"))
              (Some (JStr ""))).
Proof. split; [reflexivity | split; [discriminate | reflexivity]]. Qed.

Lemma invalid_body_propagates_witness :
  resolve_url qs_stringify_model (local_client (respond html_response)) posts_call
  = ret "https://local.test/v1/posts"
  /\ fetcher (local_client (respond html_response)) "https://local.test/v1/posts"
       (mkInit (request_headers (local_client (respond html_response)))
          (signal posts_call))
     = inr html_response
  /\ (forall cb, intercept posts_call = Some cb -> cb html_response = None)
  /\ json html_response = inl unexpected_token
  /\ get qs_stringify_model StringToNumber_digits
       (local_client (respond html_response)) posts_call
     = ([EvFetch "https://local.test/v1/posts"
           (mkInit [("Accept", "application/json")] None);
         EvIntercept html_response; EvJson html_response],
        inl (Propagated unexpected_token)).
Proof.
  split; [reflexivity|]. split; [reflexivity|].
  split; [intros cb [= <-]; reflexivity|]. split; [reflexivity|].
  apply (invalid_body_propagates qs_stringify_model StringToNumber_digits
           (local_client (respond html_response)) posts_call
           "https://local.test/v1/posts" html_response unexpected_token).
  - reflexivity.
  - reflexivity.
  - intros cb [= <-]. reflexivity.
  - reflexivity.
Defined.

(** C5, as stated, fails on a call with an invalid path and on a call
    whose transport rejects: a callback is supplied, the call fails as a
    usage error, respectively as a transport failure, and the callback has
    not been invoked. *)
Lemma no_intercept_without_response :
  intercept invalid_path_call = Some observe
  /\ get qs_stringify_model StringToNumber_digits
       (local_client (respond not_found_response)) invalid_path_call
     = ([], inl (PlainError
                   "[BTF-API] Invalid path : must starts with '/v1', got '/vyolo'"))
  /\ intercept posts_call = Some observe
  /\ get qs_stringify_model StringToNumber_digits
       (local_client (reject failed_to_fetch)) posts_call
     = ([EvFetch "https://local.test/v1/posts"
           (mkInit [("Accept", "application/json")] None)],
        inl (NetworkError failed_to_fetch))
  /\ intercepted
       (fst (get qs_stringify_model StringToNumber_digits
               (local_client (reject failed_to_fetch)) posts_call)) = false.
Proof. repeat split. Qed.

Lemma intercept_before_classification_witness :
  intercept posts_call = Some observe
  /\ get qs_stringify_model StringToNumber_digits
       (local_client (respond not_found_response)) posts_call
     = ([EvFetch "https://local.test/v1/posts"
           (mkInit [("Accept", "application/json")] None);
         EvIntercept not_found_response; EvJson not_found_response],
        inl (ApiError (Some (JNum 404)) (Some (JStr "Not Found"))
               (Some (JStr "No such post"))))
  /\ exists url res,
       fetcher (local_client (respond not_found_response)) url
         (mkInit (request_headers (local_client (respond not_found_response)))
            (signal posts_call)) = inr res
       /\ [EvFetch "https://local.test/v1/posts"
             (mkInit [("Accept", "application/json")] None);
           EvIntercept not_found_response; EvJson not_found_response]
          = [EvFetch url
               (mkInit (request_headers (local_client (respond not_found_response)))
                  (signal posts_call));
             EvIntercept res; EvJson res].
Proof.
  split; [reflexivity|]. split; [reflexivity|].
  apply (proj1 (intercept_before_classification qs_stringify_model
                  StringToNumber_digits
                  (local_client (respond not_found_response)) posts_call observe
                  _ _ eq_refl eq_refl)).
  right. do 3 eexists. reflexivity.
Defined.

(** C6, evaluated on the query
    [{ filter: { 'terms<a>': '%23x', 'terms<b>': '%23y' } }]: the serialized
    query holds [%2523] twice, [get] rewrites the first occurrence only, and
    the requested URL still holds [%2523], where replacing every occurrence
    would leave none.  Without a query descriptor the query string is
    empty. *)
Theorem second_hash_stays_escaped :
  qs_stringify_model two_hashes
  = "filter[terms<a>]=%2523x&filter[terms<b>]=%2523y"
  /\ qstr qs_stringify_model (Some two_hashes)
     = "?filter[terms<a>]=%23x&filter[terms<b>]=%2523y"
  /\ includes (qstr qs_stringify_model (Some two_hashes)) "%2523" = true
  /\ "?" ++ replaceAll "%2523" "%23" (qs_stringify_model two_hashes)
     = "?filter[terms<a>]=%23x&filter[terms<b>]=%23y"
  /\ resolve_url qs_stringify_model (local_client (respond not_found_response))
       (mkFetchOptions None (Some "posts") None (Some two_hashes) None None None)
     = ret "https://local.test/v1/posts?filter[terms<a>]=%23x&filter[terms<b>]=%2523y"
  /\ qstr qs_stringify_model None = "".
Proof. repeat split. Qed.

End Dispatch.

(* ================================================================== *)
(** * The collected identifiers as a set *)

Module Descendants.
Import Js Utils CategoryTree.
Local Open Scope list_scope.

Section Members.

Variable categories : list Category.

Local Abbreviation descends := (clos_trans Z (edge categories)).
Local Abbreviation descends_or_self := (clos_refl_trans Z (edge categories)).

(** Every listed identifier is a strict descendant. *)
Lemma preorder_sound (p : Z) (l : list Z) :
  preorder categories p l -> forall x, In x l -> descends p x.
Proof.
  intros H.
  induction H using preorder_mut
    with (P0 := fun xs l _ =>
                  forall x, In x l ->
                    exists child, In child xs
                      /\ (x = cat_id child \/ descends (cat_id child) x)).
  - intros x Hx. destruct (IHpreorder x Hx) as (child & Hchild & Hcase).
    pose proof (child_edge categories p child Hchild) as Hedge.
    destruct Hcase as [-> | Hdown].
    + now apply t_step.
    + eapply t_trans; [apply t_step, Hedge | exact Hdown].
  - intros x [].
  - intros x [<- | Hx].
    + exists child. split; [now left | now left].
    + apply in_app_or in Hx. destruct Hx as [Hx | Hx].
      * exists child. split; [now left | right; auto].
      * destruct (IHpreorder0 x Hx) as (c & Hc & Hcase).
        exists c. split; [now right | exact Hcase].
Qed.

Lemma siblings_listed (xs : list Category) (l : list Z) :
  preorder_siblings categories xs l ->
  forall child, In child xs ->
    In (cat_id child) l
    /\ exists l1, preorder categories (cat_id child) l1 /\ incl l1 l.
Proof.
  induction 1 as [|c rest l1 l2 Hc Hrest IH]; intros child Hin.
  - destruct Hin.
  - destruct Hin as [<- | Hin].
    + split; [now left|]. exists l1. split; [exact Hc|].
      intros y Hy. right. apply in_or_app. now left.
    + destruct (IH child Hin) as (Hid & l' & Hpre & Hincl).
      split; [right; apply in_or_app; now right|].
      exists l'. split; [exact Hpre|].
      intros y Hy. right. apply in_or_app. right. now apply Hincl.
Qed.

(** Every strict descendant is listed. *)
Lemma preorder_complete (p x : Z) :
  descends p x -> forall l, preorder categories p l -> In x l.
Proof.
  intros H. apply clos_trans_t1n in H.
  induction H as [p x Hedge | p y x Hedge Hrest IH]; intros l Hpre;
    inversion Hpre as [p' l' Hsib]; subst;
    destruct (edge_child categories _ _ Hedge) as (child & Hchild & <-);
    destruct (siblings_listed _ _ Hsib child Hchild) as (Hid & l1 & Hl1 & Hincl).
  - exact Hid.
  - apply Hincl. now apply IH.
Qed.

End Members.

(** X1.  Whenever [getCategoryChildrenIds] returns, its result is the
    identifier of the starting category followed by exactly the identifiers
    of its strict descendants: an identifier occurs after the first position
    if and only if a chain of parent pointers of the list leads from it up
    to the starting identifier. *)
Theorem collect_exactly_descendants (fuel : nat) (c : Category)
    (categories : list Category) (r : list Z) :
  getCategoryChildrenIds fuel c categories = Some r ->
  exists l, r = cat_id c :: l
    /\ forall x, In x l <-> clos_trans Z (edge categories) (cat_id c) x.
Proof.
  rewrite getCategoryChildrenIds_shift.
  destruct (findChildren fuel categories (cat_id c) []) as [l|] eqn:Hl;
    [|discriminate].
  intros [= <-]. exists l. split; [reflexivity|].
  pose proof (findChildren_preorder _ _ _ _ Hl) as Hpre.
  intros x. split.
  - now apply preorder_sound.
  - intros Hx. now apply (preorder_complete categories (cat_id c) x).
Qed.

Lemma collect_exactly_descendants_witness :
  getCategoryChildrenIds 8 (category 1 None) mockCategories
  = Some [1; 2; 3; 4; 5]
  /\ exists l, [1; 2; 3; 4; 5] = cat_id (category 1 None) :: l
       /\ forall x, In x l <->
            clos_trans Z (edge mockCategories) (cat_id (category 1 None)) x.
Proof.
  split; [reflexivity|].
  apply (collect_exactly_descendants 8 (category 1 None) mockCategories).
  reflexivity.
Defined.

(** ** Lists with pairwise distinct identifiers *)

Section Distinct.

Variable categories : list Category.
Hypothesis Hdistinct : NoDup (map cat_id categories).

Local Abbreviation descends := (clos_trans Z (edge categories)).
Local Abbreviation descends_or_self := (clos_refl_trans Z (edge categories)).

Lemma same_id_same_category (xs : list Category) (a b : Category) :
  NoDup (map cat_id xs) -> In a xs -> In b xs -> cat_id a = cat_id b -> a = b.
Proof.
  induction xs as [|x xs IH]; intros Hnd Ha Hb Hid; [destruct Ha|].
  inversion Hnd as [|? ? Hnotin Hnd']; subst.
  destruct Ha as [-> | Ha], Hb as [-> | Hb]; auto.
  - destruct Hnotin. rewrite Hid. now apply in_map.
  - destruct Hnotin. rewrite <- Hid. now apply in_map.
Qed.

Lemma parent_is_functional (a b : Z) (cat : Category) :
  parent_is a cat = true -> parent_is b cat = true -> a = b.
Proof.
  unfold parent_is. destruct (parentCategory cat) as [r|]; [|discriminate].
  destruct (rel_id r) as [n | s]; simpl; [|discriminate].
  rewrite !Z.eqb_eq. congruence.
Qed.

(** An identifier has at most one parent. *)
Lemma unique_parent (a b x : Z) :
  edge categories a x -> edge categories b x -> a = b.
Proof.
  intros (ca & Hina & Hpa & Hida) (cb & Hinb & Hpb & Hidb).
  assert (ca = cb) as ->
    by (apply (same_id_same_category categories); congruence).
  now apply (parent_is_functional a b cb).
Qed.

Lemma into_parent (a p x : Z) :
  descends a x -> edge categories p x -> descends_or_self a p.
Proof.
  intros Hax Hpx. apply clos_trans_tn1 in Hax.
  inversion Hax as [? Hedge | y ? Hedge Hay]; subst.
  - rewrite (unique_parent _ _ _ Hpx Hedge). apply rt_refl.
  - rewrite (unique_parent _ _ _ Hpx Hedge).
    now apply clos_t_clos_rt, clos_tn1_trans.
Qed.

Lemma descends_or_equal (a b : Z) :
  descends_or_self a b -> a = b \/ descends a b.
Proof.
  intros H. apply clos_rt_rtn1 in H.
  inversion H as [Heq | y z Hedge Hay]; subst; [now left|].
  right. eapply clos_rt_t; [apply clos_rtn1_rt, Hay | now apply t_step].
Qed.

(** The ancestors of an identifier form a chain. *)
Lemma ancestors_comparable (a b z : Z) :
  descends_or_self a z -> descends_or_self b z ->
  descends_or_self a b \/ descends_or_self b a.
Proof.
  intros Ha. apply clos_rt_rtn1 in Ha. revert b.
  induction Ha as [|y z Hyz Hay IH]; intros b Hb.
  - now right.
  - destruct (descends_or_equal _ _ Hb) as [-> | Hbz].
    + left. eapply rt_trans; [apply clos_rtn1_rt, Hay | now apply rt_step].
    + apply IH. now apply (into_parent b y z).
Qed.

Lemma returns_no_cycle (fuel : nat) (p : Z) (acc r : list Z) :
  findChildren fuel categories p acc = Some r -> ~ descends p p.
Proof.
  intros Hr Hcycle.
  rewrite (findChildren_overflows categories fuel p acc) in Hr;
    [discriminate Hr|].
  exists p. split; [apply rt_refl | exact Hcycle].
Qed.

(** Two distinct children of [p] have no common descendant-or-self, unless
    [p] lies on a cycle. *)
Lemma siblings_apart (p a b y : Z) :
  ~ descends p p ->
  edge categories p a -> edge categories p b -> a <> b ->
  descends_or_self a y -> descends_or_self b y -> False.
Proof.
  intros Hp Hpa Hpb Hab Hay Hby.
  assert (Hup : forall u v, edge categories p u -> edge categories p v ->
                            descends u v -> False).
  { intros u v Hpu Hpv Huv. apply Hp.
    destruct (descends_or_equal _ _ (into_parent u p v Huv Hpv))
      as [Heq | Hdown].
    - subst u. now apply t_step.
    - eapply t_trans; [apply t_step, Hpu | exact Hdown]. }
  destruct (ancestors_comparable a b y Hay Hby) as [H | H];
    destruct (descends_or_equal _ _ H) as [Heq | Hdown]; try congruence.
  - exact (Hup a b Hpa Hpb Hdown).
  - exact (Hup b a Hpb Hpa Hdown).
Qed.

Lemma siblings_sound (xs : list Category) (l : list Z) :
  preorder_siblings categories xs l ->
  forall x, In x l ->
    exists child, In child xs /\ descends_or_self (cat_id child) x.
Proof.
  induction 1 as [|c rest l1 l2 Hc Hrest IH]; intros x Hx.
  - destruct Hx.
  - destruct Hx as [<- | Hx].
    + exists c. split; [now left | apply rt_refl].
    + apply in_app_or in Hx. destruct Hx as [Hx | Hx].
      * exists c. split; [now left|].
        now apply clos_t_clos_rt, (preorder_sound categories (cat_id c) l1).
      * destruct (IH x Hx) as (child & Hin & Hdown).
        exists child. split; [now right | exact Hdown].
Qed.

Lemma for_of_distinct (fuel : nat) (p : Z) :
  (forall q l, findChildren fuel categories q [] = Some l -> NoDup l) ->
  ~ descends p p ->
  forall xs l,
    NoDup (map cat_id xs) ->
    (forall x, In x xs -> edge categories p (cat_id x)) ->
    for_of xs (visit_child categories fuel) [] = Some l ->
    NoDup l.
Proof.
  intros IH Hp xs. induction xs as [|x xs IHxs]; intros l Hnd Hedges; simpl.
  - intros [= <-]. constructor.
  - unfold visit_child at 1. rewrite findChildren_shift. simpl.
    destruct (findChildren fuel categories (cat_id x) []) as [l1|] eqn:Hl1;
      simpl; [|discriminate].
    rewrite for_of_shift by (apply findChildren_shift).
    destruct (for_of xs (visit_child categories fuel) []) as [l2|] eqn:Hl2;
      simpl; [|discriminate].
    intros [= <-].
    inversion Hnd as [|? ? Hnotin Hnd']; subst.
    pose proof (findChildren_preorder _ _ _ _ Hl1) as Hpre1.
    pose proof (for_of_preorder categories fuel
                  (findChildren_preorder categories fuel) xs l2 Hl2) as Hpre2.
    assert (Hpx : edge categories p (cat_id x)) by (apply Hedges; now left).
    assert (Hother : forall y, In y l2 ->
              forall z, descends_or_self (cat_id x) z -> z <> y).
    { intros y Hy z Hxz ->.
      destruct (siblings_sound xs l2 Hpre2 y Hy) as (child & Hin & Hdown).
      apply (siblings_apart p (cat_id x) (cat_id child) y Hp Hpx); auto.
      - apply Hedges. now right.
      - intros Heq. apply Hnotin. rewrite Heq. now apply in_map. }
    constructor.
    + intros Hin. apply in_app_or in Hin. destruct Hin as [Hin | Hin].
      * apply (returns_no_cycle fuel (cat_id x) [] l1 Hl1).
        now apply (preorder_sound categories (cat_id x) l1).
      * exact (Hother (cat_id x) Hin (cat_id x) (rt_refl _ _ _) eq_refl).
    + apply NoDup_app.
      * now apply (IH (cat_id x)).
      * apply IHxs; auto. intros y Hy. apply Hedges. now right.
      * intros y Hy1 Hy2.
        apply (Hother y Hy2 y); [|reflexivity].
        now apply clos_t_clos_rt, (preorder_sound categories (cat_id x) l1).
Qed.

Lemma children_distinct (p : Z) :
  NoDup (map cat_id (children_of categories p)).
Proof.
  unfold children_of. revert Hdistinct.
  induction categories as [|c cs IH]; simpl; intros Hnd; [constructor|].
  inversion Hnd as [|? ? Hnotin Hnd']; subst.
  destruct (parent_is p c); simpl; [|now apply IH].
  constructor; [|now apply IH].
  intros Hin. apply Hnotin. apply in_map_iff in Hin.
  destruct Hin as (y & Hid & Hy). apply filter_In in Hy.
  rewrite <- Hid. now apply in_map.
Qed.

Lemma findChildren_distinct (fuel : nat) :
  forall p l, findChildren fuel categories p [] = Some l -> NoDup l.
Proof.
  induction fuel as [|fuel IH]; intros p l Hl; [discriminate Hl|].
  pose proof (returns_no_cycle _ _ _ _ Hl) as Hp.
  rewrite findChildren_unfold in Hl.
  apply (for_of_distinct fuel p IH Hp (children_of categories p) l).
  - apply children_distinct.
  - intros x Hx. now apply child_edge.
  - exact Hl.
Qed.

Lemma descendant_is_listed_id (p x : Z) :
  descends p x -> In x (map cat_id categories).
Proof.
  intros H. apply clos_trans_tn1 in H.
  inversion H as [? (cat & Hin & _ & Hid) | y ? (cat & Hin & _ & Hid) _];
    subst; now apply in_map.
Qed.

End Distinct.

(** X2.  On a list whose categories have pairwise distinct identifiers, a
    result of [getCategoryChildrenIds] lists no identifier twice, and it is
    at most one longer than the list. *)
Theorem collect_without_repetition (fuel : nat) (c : Category)
    (categories : list Category) (r : list Z) :
  NoDup (map cat_id categories) ->
  getCategoryChildrenIds fuel c categories = Some r ->
  NoDup r /\ (List.length r <= S (List.length categories))%nat.
Proof.
  intros Hdistinct. rewrite getCategoryChildrenIds_shift.
  destruct (findChildren fuel categories (cat_id c) []) as [l|] eqn:Hl;
    [|discriminate].
  intros [= <-].
  pose proof (findChildren_distinct categories Hdistinct fuel _ _ Hl) as Hnd.
  pose proof (findChildren_preorder _ _ _ _ Hl) as Hpre.
  split.
  - constructor; [|exact Hnd].
    intros Hin. apply (returns_no_cycle categories fuel _ _ _ Hl).
    now apply (preorder_sound categories (cat_id c) l).
  - simpl. apply le_n_S. rewrite <- (length_map cat_id categories).
    apply NoDup_incl_length; [exact Hnd|].
    intros x Hx. apply (descendant_is_listed_id categories (cat_id c)).
    now apply (preorder_sound categories (cat_id c) l).
Qed.

Lemma collect_without_repetition_witness :
  NoDup (map cat_id mockCategories)
  /\ getCategoryChildrenIds 8 (category 1 None) mockCategories
     = Some [1; 2; 3; 4; 5]
  /\ NoDup [1; 2; 3; 4; 5]
  /\ (List.length [1; 2; 3; 4; 5] <= S (List.length mockCategories))%nat.
Proof.
  assert (Hdistinct : NoDup (map cat_id mockCategories)).
  { simpl. repeat (constructor; [simpl; intuition discriminate|]).
    constructor. }
  split; [exact Hdistinct|]. split; [reflexivity|].
  apply (collect_without_repetition 8 (category 1 None) mockCategories).
  - exact Hdistinct.
  - reflexivity.
Defined.

(** ** Parents come first *)

Lemma preorder_parent_before (categories : list Category) (p : Z) (l : list Z) :
  preorder categories p l ->
  forall x, In x l ->
    exists q before after,
      l = before ++ x :: after /\ edge categories q x
      /\ (q = p \/ In q before).
Proof.
  intros H.
  induction H using preorder_mut
    with (P0 := fun xs l _ =>
                  forall pp, (forall child, In child xs ->
                                edge categories pp (cat_id child)) ->
                  forall x, In x l ->
                    exists q before after,
                      l = before ++ x :: after /\ edge categories q x
                      /\ (q = pp \/ In q before)).
  - intros x Hx. apply (IHpreorder p); [|exact Hx].
    intros child Hchild. now apply child_edge.
  - intros pp _ x [].
  - intros pp Hpp x [<- | Hx].
    + exists pp, [], (l1 ++ l2). split; [reflexivity|].
      split; [apply Hpp; now left | now left].
    + apply in_app_or in Hx. destruct Hx as [Hx | Hx].
      * destruct (IHpreorder x Hx) as (q & before & after & -> & Hq & Hcase).
        exists q, (cat_id child :: before), (after ++ l2).
        split; [simpl; now rewrite <- app_assoc|].
        split; [exact Hq|]. right.
        destruct Hcase as [-> | Hin]; [now left | now right].
      * destruct (IHpreorder0 pp (fun c Hc => Hpp c (or_intror Hc)) x Hx)
          as (q & before & after & -> & Hq & Hcase).
        exists q, (cat_id child :: l1 ++ before), after.
        split; [simpl; now rewrite <- app_assoc|].
        split; [exact Hq|].
        destruct Hcase as [-> | Hin]; [now left|].
        right. right. apply in_or_app. now right.
Qed.

(** X18.  In a result of [getCategoryChildrenIds], every identifier after
    the first one is preceded by the identifier of a parent of its: a
    category is never listed before the category it hangs from. *)
Theorem collect_parent_first (fuel : nat) (c : Category)
    (categories : list Category) (r : list Z) :
  getCategoryChildrenIds fuel c categories = Some r ->
  forall x, In x (tl r) ->
    exists q before after,
      r = before ++ x :: after /\ edge categories q x /\ In q before.
Proof.
  rewrite getCategoryChildrenIds_shift.
  destruct (findChildren fuel categories (cat_id c) []) as [l|] eqn:Hl;
    [|discriminate].
  intros [= <-] x Hx. cbn [tl] in Hx.
  destruct (preorder_parent_before categories (cat_id c) l
              (findChildren_preorder _ _ _ _ Hl) x Hx)
    as (q & before & after & -> & Hq & Hcase).
  exists q, (cat_id c :: before), after.
  split; [reflexivity|]. split; [exact Hq|].
  destruct Hcase as [-> | Hin]; [now left | now right].
Qed.

Lemma collect_parent_first_witness :
  getCategoryChildrenIds 8 (category 1 None) mockCategories
  = Some [1; 2; 3; 4; 5]
  /\ In 4 (tl [1; 2; 3; 4; 5])
  /\ exists q before after,
       [1; 2; 3; 4; 5] = before ++ 4 :: after
       /\ edge mockCategories q 4 /\ In q before.
Proof.
  split; [reflexivity|]. split; [simpl; auto|].
  apply (collect_parent_first 8 (category 1 None) mockCategories
           [1; 2; 3; 4; 5] eq_refl 4).
  simpl. auto.
Defined.

End Descendants.

(* ================================================================== *)
(** * Looking resources up *)

Module Lookup.
Import Js Utils Notions RelatedResource.
Local Open Scope list_scope.

Section Pools.
Context {P : Type}.


Lemma matches_pointer_to (x y : Resource P) :
  matches (pointer_to x) y = true <-> identity y = identity x.
Proof.
  rewrite matches_iff. unfold same_identity, identity, pointer_to. simpl.
  split; [intros [-> ->]; reflexivity | intros [= -> ->]; now split].
Qed.

(** X4.  In a pool whose resources have pairwise distinct [(id, type)],
    every resource is found again from the pointer made of its own [id] and
    [type]. *)
Theorem getRelated_finds_member (included : list (Resource P))
    (resource : Resource P) :
  NoDup (map identity included) ->
  In resource included ->
  getRelated (Some (pointer_to resource)) included = Some resource.
Proof.
  simpl. induction included as [|x xs IH]; intros Hnd Hin; [destruct Hin|].
  inversion Hnd as [|? ? Hnotin Hnd']; subst. simpl.
  destruct (matches (pointer_to resource) x) eqn:Hm.
  - destruct Hin as [-> | Hin]; [reflexivity|].
    apply matches_pointer_to in Hm. destruct Hnotin.
    rewrite Hm. now apply in_map.
  - destruct Hin as [-> | Hin]; [|now apply IH].
    assert (matches (pointer_to resource) resource = true)
      by now apply matches_pointer_to.
    congruence.
Qed.

End Pools.

Lemma getRelated_finds_member_witness :
  let pool := [mkResource (IdNum 123) "image" 1%nat;
               mkResource (IdNum 123) "video" 2%nat;
               mkResource (IdStr "123") "image" 3%nat] in
  NoDup (map identity pool)
  /\ In (mkResource (IdStr "123") "image" 3%nat) pool
  /\ getRelated (Some (pointer_to (mkResource (IdStr "123") "image" 3%nat))) pool
     = Some (mkResource (IdStr "123") "image" 3%nat).
Proof.
  intros pool.
  assert (Hnd : NoDup (map identity pool)).
  { simpl. repeat (constructor; [simpl; intuition discriminate|]).
    constructor. }
  assert (Hin : In (mkResource (IdStr "123") "image" 3%nat) pool)
    by (simpl; auto).
  split; [exact Hnd|]. split; [exact Hin|].
  apply (getRelated_finds_member pool _ Hnd Hin).
Defined.

End Lookup.

(* ================================================================== *)
(** * The rules of the media URL, one by one *)

Module MediaRules.
Import Js Utils Notions MediaUrl.

Lemma getMediaUrl_unfold (o : GetMediaUrlOptions) :
  getMediaUrl o
  = Utils.bind
      (if is_playable_ext (ext o) then
         if is_video_or_audio (media_type (media o)) then
           Utils.bind
             (throw_if (negb (is_default_or_source (chosen_format o)))
                (format_not_allowed_message o))
             (fun _ =>
                throw_if (match definition o with None => true | Some _ => false end)
                  (definition_required_message o))
         else Throw (invalid_type_message o)
       else Return tt)
      (fun _ =>
         Utils.bind
           (throw_if (String.eqb (mimetype (media o)) "image/gif"
                      && is_gif_ext (ext o)
                      && negb (MediaFormat_eqb (chosen_format o) Fsource))
              "[BTF-MEDIA] GIF images must use 'source' format")
           (fun _ => Return (assembled o))).
Proof.
  unfold getMediaUrl, assembled, chosen_format, chosen_slug.
  destruct (size_text (definition o) (width o)); reflexivity.
Qed.

(** X5.  The message of a failure of [getMediaUrl] is that of the first
    rule that fails, in the order: type of the media, format, definition,
    GIF.  A playable extension on an image fails on the type whatever the
    format and the definition; a wrong format fails on the format even when
    the definition is missing too. *)
Theorem getMediaUrl_first_failure (o : GetMediaUrlOptions) :
  (wrong_type_for_playable o ->
   getMediaUrl o = Throw (invalid_type_message o))
  /\ (wrong_format_for_playable o ->
      getMediaUrl o = Throw (format_not_allowed_message o))
  /\ (missing_definition o -> ~ wrong_format_for_playable o ->
      getMediaUrl o = Throw (definition_required_message o))
  /\ (gif_not_source o ->
      getMediaUrl o = Throw "[BTF-MEDIA] GIF images must use 'source' format").
Proof.
  rewrite getMediaUrl_unfold.
  unfold wrong_type_for_playable, wrong_format_for_playable,
    missing_definition, gif_not_source.
  rewrite <- playable_iff, <- video_or_audio_iff, <- default_or_source_iff,
    <- not_source_iff, <- is_gif_iff, <- String.eqb_eq.
  destruct (ext o) as [[]|]; cbn [is_playable_ext is_gif_ext];
    destruct (is_video_or_audio (media_type (media o)));
    destruct (is_default_or_source (chosen_format o));
    destruct (definition o);
    destruct (String.eqb (mimetype (media o)) "image/gif");
    destruct (MediaFormat_eqb (chosen_format o) Fsource);
    cbn [negb andb Utils.bind throw_if];
    repeat split; intros; try reflexivity; intuition congruence.
Qed.

Lemma getMediaUrl_first_failure_witness :
  (wrong_type_for_playable
     (mkOptions test_domain mockImage (Some Fthumb) None None (Some Emp4) None)
   /\ getMediaUrl
        (mkOptions test_domain mockImage (Some Fthumb) None None (Some Emp4) None)
      = Throw "[BTF-MEDIA] Invalid media type (image) for extension .mp4")
  /\ (wrong_format_for_playable
        (mkOptions test_domain mockVideo (Some Fthumb) None None (Some Emp4) None)
      /\ getMediaUrl
           (mkOptions test_domain mockVideo (Some Fthumb) None None (Some Emp4) None)
         = Throw "[BTF-MEDIA] Format 'thumb' is not allowed for video with ext .mp4. Use 'default' or 'source'.")
  /\ (missing_definition
        (mkOptions test_domain mockAudio None None None (Some Emp3) None)
      /\ ~ wrong_format_for_playable
             (mkOptions test_domain mockAudio None None None (Some Emp3) None)
      /\ getMediaUrl
           (mkOptions test_domain mockAudio None None None (Some Emp3) None)
         = Throw "[BTF-MEDIA] audio requires 'definition' parameter for extension .mp3")
  /\ (gif_not_source
        (mkOptions test_domain gifImage None (Some 800) None (Some Egif) None)
      /\ getMediaUrl
           (mkOptions test_domain gifImage None (Some 800) None (Some Egif) None)
         = Throw "[BTF-MEDIA] GIF images must use 'source' format").
Proof.
  assert (H1 : wrong_type_for_playable
           (mkOptions test_domain mockImage (Some Fthumb) None None (Some Emp4) None)).
  { split; [now left | intros [H | H]; discriminate H]. }
  assert (H2 : wrong_format_for_playable
           (mkOptions test_domain mockVideo (Some Fthumb) None None (Some Emp4) None)).
  { split; [now left|]. split; [now left|]. split; discriminate. }
  assert (H3 : missing_definition
           (mkOptions test_domain mockAudio None None None (Some Emp3) None)).
  { split; [now right|]. split; [now right | reflexivity]. }
  assert (H3' : ~ wrong_format_for_playable
           (mkOptions test_domain mockAudio None None None (Some Emp3) None)).
  { intros (_ & _ & Hf & _). now apply Hf. }
  assert (H4 : gif_not_source
           (mkOptions test_domain gifImage None (Some 800) None (Some Egif) None)).
  { split; [reflexivity|]. split; [reflexivity | discriminate]. }
  split; [split; [exact H1|] | split; [split; [exact H2|]
         | split; [split; [exact H3 | split; [exact H3'|]] | split; [exact H4|]]]].
  - exact (proj1 (getMediaUrl_first_failure _) H1).
  - exact (proj1 (proj2 (getMediaUrl_first_failure _)) H2).
  - exact (proj1 (proj2 (proj2 (getMediaUrl_first_failure _))) H3 H3').
  - exact (proj2 (proj2 (proj2 (getMediaUrl_first_failure _))) H4).
Defined.

(** X6.  When a definition is given, the width has no influence on the
    result of [getMediaUrl]: the size segment is the definition. *)
Theorem definition_overrides_width (o : GetMediaUrlOptions) (w : option Z) :
  definition o <> None ->
  getMediaUrl (with_width o w) = getMediaUrl o.
Proof.
  intros Hdef. rewrite !getMediaUrl_unfold.
  unfold assembled, format_not_allowed_message, definition_required_message,
    invalid_type_message, chosen_format, chosen_slug, size_text.
  cbn [with_width Utils.domain media format width slug ext definition].
  destruct (definition o) as [d|]; [reflexivity | now destruct Hdef].
Qed.

Lemma definition_overrides_width_witness :
  definition (mkOptions test_domain mockVideo (Some Fsource) (Some 1920)
                (Some "my-video") (Some Emp4) (Some Dhd)) <> None
  /\ getMediaUrl (mkOptions test_domain mockVideo (Some Fsource) None
                    (Some "my-video") (Some Emp4) (Some Dhd))
     = getMediaUrl (mkOptions test_domain mockVideo (Some Fsource) (Some 1920)
                      (Some "my-video") (Some Emp4) (Some Dhd)).
Proof.
  split; [discriminate|].
  apply (definition_overrides_width
           (mkOptions test_domain mockVideo (Some Fsource) (Some 1920)
              (Some "my-video") (Some Emp4) (Some Dhd)) None).
  discriminate.
Defined.

End MediaRules.

(* ================================================================== *)
(** * Further properties of a call *)

Module Calls.
Import Js Errors Client CallNotions Dispatch.

(** ** The domain of a client *)

Lemma strip_app_slash (d : string) : strip_trailing_slash (d ++ "/") = d.
Proof.
  induction d as [|c d IH]; [reflexivity|].
  cbn [append strip_trailing_slash]. rewrite IH.
  now destruct d.
Qed.

Lemma strip_no_slash (s : string) :
  (forall d, s <> d ++ "/") -> strip_trailing_slash s = s.
Proof.
  induction s as [|c s IH]; intros Hs; [reflexivity|].
  cbn [strip_trailing_slash]. destruct s as [|c' s'].
  - destruct (Ascii.eqb_spec c "/"%char) as [-> | Hc]; [|reflexivity].
    now destruct (Hs "").
  - f_equal. apply IH. intros d Hd. apply (Hs (String c d)).
    simpl. now rewrite Hd.
Qed.

(** X7.  The constructor removes one trailing slash from the domain and no
    more: a domain [d/] becomes [d], also when [d] itself ends with a slash,
    and a domain without a trailing slash is kept as it is. *)
Theorem new_Client_domain (globalThis_fetch : Fetch) (options : ClientOptions) :
  (forall d, co_domain options = d ++ "/" ->
             domain (new_Client globalThis_fetch options) = d)
  /\ ((forall d, co_domain options <> d ++ "/") ->
      domain (new_Client globalThis_fetch options) = co_domain options).
Proof.
  unfold new_Client. cbn [domain]. split.
  - intros d ->. apply strip_app_slash.
  - apply strip_no_slash.
Qed.

Lemma new_Client_domain_witness :
  (co_domain (mkClientOptions "https://local.test//" None None None)
   = "https://local.test/" ++ "/"
   /\ domain (new_Client (respond not_found_response)
                (mkClientOptions "https://local.test//" None None None))
      = "https://local.test/")
  /\ ((forall d, co_domain (mkClientOptions "" None None None) <> d ++ "/")
      /\ domain (new_Client (respond not_found_response)
                   (mkClientOptions "" None None None))
         = co_domain (mkClientOptions "" None None None)).
Proof.
  assert (Hempty : forall d, co_domain (mkClientOptions "" None None None)
                             <> d ++ "/").
  { intros d. destruct d; discriminate. }
  split; split.
  - reflexivity.
  - apply (proj1 (new_Client_domain (respond not_found_response)
                    (mkClientOptions "https://local.test//" None None None))
             "https://local.test/").
    reflexivity.
  - exact Hempty.
  - apply (proj2 (new_Client_domain (respond not_found_response)
                    (mkClientOptions "" None None None))).
    exact Hempty.
Defined.

(** ** One call, step by step *)

Lemma if_string_some (s : option string) (x : string) :
  if_string s = Some x <-> s = Some x /\ x <> "".
Proof.
  unfold if_string. destruct s as [y|].
  - destruct (string_truthy y) eqn:Hy.
    + apply string_truthy_iff in Hy. split.
      * intros [= ->]. now split.
      * now intros [[= ->] _].
    + split; [discriminate|]. intros [[= ->] Hx].
      apply string_truthy_iff in Hx. congruence.
  - split; [discriminate | now intros [H _]].
Qed.

Lemma if_string_none (s : option string) :
  if_string s = None <-> absent_or_empty s.
Proof.
  unfold if_string, absent_or_empty. destruct s as [y|].
  - destruct (string_truthy y) eqn:Hy.
    + apply string_truthy_iff in Hy. split; [discriminate|].
      intros [H | [= H]]; [discriminate H | congruence].
    + split; [|reflexivity]. intros _. right. f_equal.
      destruct (String.eqb_spec y ""); [assumption|].
      unfold string_truthy in Hy.
      destruct (String.eqb_spec y ""); [contradiction | discriminate Hy].
  - split; [now left | reflexivity].
Qed.

Lemma includes_false_prefix (s p : string) :
  includes s p = false -> String.prefix p s = false.
Proof. destruct s; simpl; intros H; now apply Bool.orb_false_iff in H. Qed.

(** Without an occurrence of the pattern, [replace] copies its input. *)
Lemma replace_absent (pat rep s : string) :
  includes s pat = false -> replace pat rep s = s.
Proof.
  induction s as [|c s IH]; intros H; rewrite replace_eq,
    (includes_false_prefix _ _ H); [reflexivity|].
  f_equal. apply IH. simpl in H. now apply Bool.orb_false_iff in H.
Qed.

Section Steps.

Variable qs_stringify : Query -> string.
Variable StringToNumber : string -> option Z.

Local Abbreviation get := (Client.get qs_stringify StringToNumber).
Local Abbreviation resolve_url := (Client.resolve_url qs_stringify).
Local Abbreviation classify := (Client.classify StringToNumber).

(** The transport of a call and the request it receives. *)
Local Abbreviation transport this o :=
  (match fetch o with Some f => f | None => fetcher this end).
Local Abbreviation request this o :=
  (mkInit (request_headers this) (signal o)).

Lemma get_usage_error (this : Client) (o : FetchOptions) (m : string) :
  resolve_url this o = throw (PlainError m) ->
  get this o = ([], inl (PlainError m)).
Proof. intros H. now rewrite get_steps, H. Qed.

Lemma get_rejected (this : Client) (o : FetchOptions) (url : string)
    (error : Exn) :
  resolve_url this o = ret url ->
  transport this o url (request this o) = inl error ->
  get this o
  = ([EvFetch url (request this o)],
     inl (if instanceof_TypeError error
             || instanceof_Error error && String.eqb (exn_name error) "AbortError"
          then NetworkError error else Propagated error)).
Proof.
  intros Hurl Hres. rewrite get_steps, Hurl, bind_ret_l.
  unfold call_fetch. rewrite Hres.
  now destruct (instanceof_TypeError error
                || instanceof_Error error && String.eqb (exn_name error) "AbortError").
Qed.

Lemma get_resolved (this : Client) (o : FetchOptions) (url : string)
    (res : Response) :
  resolve_url this o = ret url ->
  transport this o url (request this o) = inr res ->
  get this o
  = (EvFetch url (request this o) :: fst (after_response StringToNumber o res),
     snd (after_response StringToNumber o res)).
Proof.
  intros Hurl Hres. rewrite (get_after_response _ _ this o url res Hurl Hres).
  unfold bind. now destruct (after_response StringToNumber o res).
Qed.

(** X8.  A call performs no input or output at all exactly when it is a
    usage error: a non-empty path that does not start with the version
    prefix, or neither a non-empty path nor a non-empty endpoint.  The
    error is then the plain [Error] of that case. *)
Theorem no_io_iff_usage_error (this : Client) (o : FetchOptions) :
  (fst (get this o) = [] <->
   (exists p, path o = Some p /\ p <> ""
              /\ startsWith p ("/" ++ apiVersion this) = false)
   \/ (absent_or_empty (path o) /\ absent_or_empty (endpoint o)))
  /\ (forall p, path o = Some p -> p <> "" ->
        startsWith p ("/" ++ apiVersion this) = false ->
        get this o
        = ([], inl (PlainError ("[BTF-API] Invalid path : must starts with '/"
                                ++ apiVersion this ++ "', got '" ++ p ++ "'"))))
  /\ (absent_or_empty (path o) -> absent_or_empty (endpoint o) ->
      get this o
      = ([], inl (PlainError
                    "[BTF-API] You must provide either a path or an endpoint"))).
Proof.
  assert (Hinvalid : forall p, path o = Some p -> p <> "" ->
            startsWith p ("/" ++ apiVersion this) = false ->
            get this o
            = ([], inl (PlainError
                          ("[BTF-API] Invalid path : must starts with '/"
                           ++ apiVersion this ++ "', got '" ++ p ++ "'")))).
  { intros p Hp Hne Hprefix. apply get_usage_error.
    unfold Client.resolve_url.
    rewrite (proj2 (if_string_some (path o) p) (conj Hp Hne)), Hprefix.
    reflexivity. }
  assert (Hmissing : absent_or_empty (path o) -> absent_or_empty (endpoint o) ->
            get this o
            = ([], inl (PlainError
                          "[BTF-API] You must provide either a path or an endpoint"))).
  { intros Hp He. apply get_usage_error. unfold Client.resolve_url.
    now rewrite (proj2 (if_string_none _) Hp), (proj2 (if_string_none _) He). }
  split; [|split; assumption].
  split.
  - intros Hnil. rewrite get_steps in Hnil. unfold Client.resolve_url in Hnil.
    destruct (if_string (path o)) as [p|] eqn:Hpath.
    + apply if_string_some in Hpath. destruct Hpath as [Hp Hne].
      destruct (startsWith p ("/" ++ apiVersion this)) eqn:Hprefix.
      * cbn [negb when] in Hnil. rewrite !bind_ret_l in Hnil.
        unfold call_fetch, bind in Hnil.
        destruct (transport this o (domain this ++ p) (request this o));
          [destruct (instanceof_TypeError e
                     || instanceof_Error e && String.eqb (exn_name e) "AbortError")
          | destruct (after_response StringToNumber o r)];
          discriminate Hnil.
      * left. now exists p.
    + apply if_string_none in Hpath. right. split; [exact Hpath|].
      destruct (if_string (endpoint o)) as [e|] eqn:Hend.
      * exfalso. destruct (if_Id (id o)); rewrite bind_ret_l in Hnil;
          unfold call_fetch, bind in Hnil;
          match type of Hnil with
          | context [transport this o ?u ?i] =>
              destruct (transport this o u i) as [err | r];
              [destruct (instanceof_TypeError err
                         || instanceof_Error err
                            && String.eqb (exn_name err) "AbortError")
              | destruct (after_response StringToNumber o r)]
          end; discriminate Hnil.
      * now apply if_string_none.
  - intros [(p & Hp & Hne & Hprefix) | [Hp He]].
    + now rewrite (Hinvalid p Hp Hne Hprefix).
    + now rewrite (Hmissing Hp He).
Qed.

Lemma network_failure_iff (error : Exn) :
  instanceof_TypeError error
  || instanceof_Error error && String.eqb (exn_name error) "AbortError" = true
  <-> is_network_failure error.
Proof.
  unfold is_network_failure, instanceof_TypeError, instanceof_Error.
  rewrite Bool.orb_true_iff, Bool.andb_true_iff, String.eqb_eq.
  destruct (exn_class error); intuition congruence.
Qed.

(** X9.  When the transport rejects, the call makes that one request and
    nothing else (no callback, no body read).  It fails as a [NetworkError]
    holding the rejection when the rejection is a [TypeError] or an [Error]
    named [AbortError]; any other rejection reaches the caller unchanged. *)
Theorem rejection_is_wrapped_or_rethrown (this : Client) (o : FetchOptions)
    (url : string) (error : Exn) :
  resolve_url this o = ret url ->
  transport this o url (request this o) = inl error ->
  fst (get this o) = [EvFetch url (request this o)]
  /\ (is_network_failure error -> snd (get this o) = inl (NetworkError error))
  /\ (~ is_network_failure error -> snd (get this o) = inl (Propagated error)).
Proof.
  intros Hurl Hres. rewrite (get_rejected this o url error Hurl Hres).
  cbn [fst snd]. split; [reflexivity|].
  destruct (instanceof_TypeError error
            || instanceof_Error error && String.eqb (exn_name error) "AbortError")
    eqn:Hwrap; split; intros H; try reflexivity.
  - apply network_failure_iff in Hwrap. contradiction.
  - apply network_failure_iff in H. congruence.
Qed.

Lemma after_response_plain (o : FetchOptions) (res : Response) (data : Json) :
  (forall cb, intercept o = Some cb -> cb res = None) ->
  json res = inr data ->
  after_response StringToNumber o res
  = ((match intercept o with
      | Some _ => [EvIntercept res; EvJson res]
      | None => [EvJson res]
      end)%list,
     snd (classify res data)).
Proof.
  intros Hcb Hjson.
  assert (Hpure : fst (classify res data) = []).
  { destruct (classify_pure StringToNumber res data)
      as [Hc | [(st & loc & Hc) | [(st & t & d & Hc) | Hc]]]; now rewrite Hc. }
  unfold after_response, call_intercept, call_json, bind, ret.
  rewrite Hjson.
  destruct (classify res data) as [t r]. cbn [fst snd] in *. subst t.
  destruct (intercept o) as [cb|].
  - now rewrite (Hcb cb eq_refl).
  - reflexivity.
Qed.

Lemma classify_plain (res : Response) (data : Json) :
  no_errors_entry data = true ->
  classify res data
  = if ok res then ret data
    else throw (ApiError (Some (JNum (status res))) (Some (JStr "Unknown error"))
                  (Some (JStr ""))).
Proof.
  unfold no_errors_entry, Client.classify. intros H.
  assert (Hguard : isApiErrorResponse data
                   && negb (Nat.eqb (List.length (errors_of data)) 0) = false).
  { destruct (isApiErrorResponse data); [|reflexivity].
    cbn [negb orb andb] in *. now rewrite H. }
  rewrite Hguard, when_false, bind_ret_l.
  destruct (ok res); cbn [negb when]; [now rewrite bind_ret_l | reflexivity].
Qed.

(** X10.  When the parsed body carries no error entry (it is not an object
    with an [errors] array, or that array is empty), the HTTP status alone
    decides: a status from 200 to 299 returns the parsed body as it is, any
    other status fails as an API failure carrying that status, the title
    [Unknown error] and empty details. *)
Theorem plain_body_follows_status (this : Client) (o : FetchOptions)
    (url : string) (res : Response) (data : Json) :
  resolve_url this o = ret url ->
  transport this o url (request this o) = inr res ->
  (forall cb, intercept o = Some cb -> cb res = None) ->
  json res = inr data ->
  no_errors_entry data = true ->
  (200 <= status res <= 299 -> snd (get this o) = inr data)
  /\ (~ 200 <= status res <= 299 ->
      snd (get this o)
      = inl (ApiError (Some (JNum (status res))) (Some (JStr "Unknown error"))
               (Some (JStr "")))).
Proof.
  intros Hurl Hres Hcb Hjson Hplain.
  rewrite (get_resolved this o url res Hurl Hres),
    (after_response_plain o res data Hcb Hjson), (classify_plain res data Hplain).
  cbn [snd]. unfold ok.
  destruct (Z.leb_spec 200 (status res)), (Z.leb_spec (status res) 299);
    cbn [andb]; split; intros Hstatus; try reflexivity; lia.
Qed.

(** X11.  A call makes at most one network request.  The request carries
    the header [Accept: application/json] and the signal of the call, and it
    carries the header [X-Butterfly-Key] exactly when the client has a
    non-empty public key, with that key. *)
Theorem at_most_one_request (this : Client) (o : FetchOptions) :
  (fetch_count (fst (get this o)) <= 1)%nat
  /\ forall url init,
       In (EvFetch url init) (fst (get this o)) ->
       init_signal init = signal o
       /\ In ("Accept", "application/json") (init_headers init)
       /\ forall key, In ("X-Butterfly-Key", key) (init_headers init)
                      <-> publicKey this = Some key /\ key <> "".
Proof.
  assert (Hheaders :
    In ("Accept", "application/json") (request_headers this)
    /\ forall key, In ("X-Butterfly-Key", key) (request_headers this)
                   <-> publicKey this = Some key /\ key <> "").
  { unfold request_headers.
    destruct (if_string (publicKey this)) as [k|] eqn:Hk.
    - apply if_string_some in Hk. destruct Hk as [Hk Hne].
      split; [now left|]. intros key. split.
      + intros [[=] | [[= <-] | []]]. now split.
      + intros [Hkey _]. right. left. congruence.
    - apply if_string_none in Hk.
      split; [now left|]. intros key. split.
      + intros [[=] | []].
      + intros [Hkey Hne]. destruct Hk as [Hk | Hk]; congruence. }
  assert (Hafter : forall res e,
            In e (fst (after_response StringToNumber o res)) ->
            is_fetch e = false).
  { intros res e. unfold after_response, call_intercept, call_json, bind.
    destruct (intercept o) as [cb|];
      [destruct (cb res)|]; destruct (json res) as [bad | data];
      try (destruct (classify_pure StringToNumber res data)
             as [Hc | [(st & loc & Hc) | [(st & t & d & Hc) | Hc]]]; rewrite Hc);
      cbn; intuition (subst; reflexivity). }
  assert (Hnone : forall t, (forall e, In e t -> is_fetch e = false) ->
                            filter is_fetch t = []).
  { induction t as [|e t IH]; intros Ht; [reflexivity|]. simpl.
    rewrite (Ht e (or_introl eq_refl)). apply IH.
    intros e' He'. apply Ht. now right. }
  destruct (resolve_url_pure qs_stringify this o) as [[m Hm] | [url Hurl]].
  { rewrite (get_usage_error this o m Hm). cbn. split; [lia | intros ? ? []]. }
  destruct (transport this o url (request this o)) as [error | res] eqn:Hres.
  { rewrite (get_rejected this o url error Hurl Hres). cbn. split; [lia|].
    intros u i [[= <- <-] | []]. cbn. now split. }
  rewrite (get_resolved this o url res Hurl Hres). cbn [fst].
  split.
  - unfold fetch_count. cbn [filter is_fetch].
    rewrite (Hnone _ (Hafter res)). cbn. lia.
  - intros u i [[= <- <-] | Hin]; [cbn; now split|].
    apply (Hafter res) in Hin. discriminate Hin.
Qed.

(** X12.  When the observation callback throws, the call fails with that
    exception, unchanged, and the body of the response is never read. *)
Theorem failing_callback_stops_call (this : Client) (o : FetchOptions)
    (url : string) (res : Response) (cb : Intercept) (e : Exn) :
  resolve_url this o = ret url ->
  transport this o url (request this o) = inr res ->
  intercept o = Some cb ->
  cb res = Some e ->
  get this o
  = ([EvFetch url (request this o); EvIntercept res], inl (Propagated e)).
Proof.
  intros Hurl Hres Hcb He.
  rewrite (get_resolved this o url res Hurl Hres).
  unfold after_response, call_intercept, bind. now rewrite Hcb, He.
Qed.

(** X14.  When the serialized query holds no [%2523], the query string is
    a question mark followed by the serialized query, unchanged; this
    includes the lone question mark of an empty serialization. *)
Theorem qstr_without_double_escape (q : Query) :
  includes (qs_stringify q) "%2523" = false ->
  qstr qs_stringify (Some q) = "?" ++ qs_stringify q.
Proof. intros H. unfold qstr. now rewrite replace_absent. Qed.

(** X15.  The check of a path is a prefix test on [/] followed by the
    version, with no separator after it: every path that continues the
    version in any way is accepted and appended to the domain as it is, so
    a client for [v1] accepts [/v10/posts]. *)
Theorem path_prefix_is_not_a_segment (this : Client) (o : FetchOptions)
    (rest : string) :
  path o = Some ("/" ++ apiVersion this ++ rest) ->
  resolve_url this o = ret (domain this ++ "/" ++ apiVersion this ++ rest).
Proof.
  intros Hpath. unfold Client.resolve_url.
  rewrite (proj2 (if_string_some (path o) ("/" ++ apiVersion this ++ rest)))
    by (split; [exact Hpath | discriminate]).
  unfold startsWith.
  change ("/" ++ apiVersion this ++ rest)
    with (("/" ++ apiVersion this) ++ rest) at 1.
  now rewrite prefix_app.
Qed.

(** X16.  A falsy value is treated as an absent one: the empty path, the
    empty endpoint, the identifiers [0] and [''] give the call that the
    absent value gives, so [id: 0] is never put in the URL. *)
Theorem falsy_is_absent (this : Client) (p e : option string) (i : option Id)
    (q : option Query) (f : option Fetch) (s : option AbortSignal)
    (cb : option Intercept) :
  get this (mkFetchOptions (Some "") e i q f s cb)
  = get this (mkFetchOptions None e i q f s cb)
  /\ get this (mkFetchOptions p (Some "") i q f s cb)
     = get this (mkFetchOptions p None i q f s cb)
  /\ get this (mkFetchOptions p e (Some (IdNum 0)) q f s cb)
     = get this (mkFetchOptions p e None q f s cb)
  /\ get this (mkFetchOptions p e (Some (IdStr "")) q f s cb)
     = get this (mkFetchOptions p e None q f s cb).
Proof. repeat split. Qed.

Lemma prefix_other_head (c d : ascii) (p s : string) :
  c <> d -> String.prefix (String d p) (String c s) = false.
Proof.
  intros Hcd. simpl. destruct (ascii_dec d c) as [-> | _]; [|reflexivity].
  now destruct Hcd.
Qed.

(** X19.  A path that does not begin with a slash, such as an absolute URL
    taken from a [next] link, is a usage error: no request is made. *)
Theorem absolute_url_is_rejected (this : Client) (o : FetchOptions)
    (c : ascii) (rest : string) :
  path o = Some (String c rest) -> c <> "/"%char ->
  get this o
  = ([], inl (PlainError ("[BTF-API] Invalid path : must starts with '/"
                          ++ apiVersion this ++ "', got '" ++ String c rest
                          ++ "'"))).
Proof.
  intros Hpath Hc.
  apply (proj1 (proj2 (no_io_iff_usage_error this o)) (String c rest) Hpath).
  - discriminate.
  - unfold startsWith. cbn [append]. now apply prefix_other_head.
Qed.

End Steps.

(** ** Evaluation on the fixtures *)

Lemma no_io_iff_usage_error_witness :
  path invalid_path_call = Some "/vyolo" /\ "/vyolo" <> ""
  /\ startsWith "/vyolo"
       ("/" ++ apiVersion (local_client (respond not_found_response))) = false
  /\ get qs_stringify_model StringToNumber_digits
       (local_client (respond not_found_response)) invalid_path_call
     = ([], inl (PlainError
                   "[BTF-API] Invalid path : must starts with '/v1', got '/vyolo'")).
Proof.
  split; [reflexivity|]. split; [discriminate|]. split; [reflexivity|].
  apply (proj1 (proj2 (no_io_iff_usage_error qs_stringify_model
                         StringToNumber_digits
                         (local_client (respond not_found_response))
                         invalid_path_call)) "/vyolo").
  - reflexivity.
  - discriminate.
  - reflexivity.
Defined.

Lemma rejection_is_wrapped_or_rethrown_witness :
  resolve_url qs_stringify_model (local_client (reject aborted)) posts_call
  = ret "https://local.test/v1/posts"
  /\ fetcher (local_client (reject aborted)) "https://local.test/v1/posts"
       (mkInit (request_headers (local_client (reject aborted)))
          (signal posts_call))
     = inl aborted
  /\ is_network_failure aborted
  /\ snd (get qs_stringify_model StringToNumber_digits
            (local_client (reject aborted)) posts_call)
     = inl (NetworkError aborted).
Proof.
  assert (Habort : is_network_failure aborted).
  { right. split; [discriminate | reflexivity]. }
  split; [reflexivity|]. split; [reflexivity|]. split; [exact Habort|].
  apply (proj1 (proj2 (rejection_is_wrapped_or_rethrown qs_stringify_model
                         StringToNumber_digits (local_client (reject aborted))
                         posts_call "https://local.test/v1/posts" aborted
                         eq_refl eq_refl))).
  exact Habort.
Defined.

Example other_rejection_is_rethrown :
  get qs_stringify_model StringToNumber_digits
    (local_client (reject out_of_memory)) posts_call
  = ([EvFetch "https://local.test/v1/posts"
        (mkInit [("Accept", "application/json")] None)],
     inl (Propagated out_of_memory)).
Proof. reflexivity. Qed.

Lemma plain_body_follows_status_witness :
  resolve_url qs_stringify_model (local_client (respond empty_errors_response))
    posts_call
  = ret "https://local.test/v1/posts"
  /\ fetcher (local_client (respond empty_errors_response))
       "https://local.test/v1/posts"
       (mkInit (request_headers (local_client (respond empty_errors_response)))
          (signal posts_call))
     = inr empty_errors_response
  /\ (forall cb, intercept posts_call = Some cb -> cb empty_errors_response = None)
  /\ json empty_errors_response = inr empty_errors_body
  /\ no_errors_entry empty_errors_body = true
  /\ 200 <= status empty_errors_response <= 299
  /\ snd (get qs_stringify_model StringToNumber_digits
            (local_client (respond empty_errors_response)) posts_call)
     = inr empty_errors_body.
Proof.
  assert (Hcb : forall cb, intercept posts_call = Some cb ->
                           cb empty_errors_response = None).
  { intros cb [= <-]. reflexivity. }
  assert (Hok : 200 <= status empty_errors_response <= 299)
    by (simpl; lia).
  split; [reflexivity|]. split; [reflexivity|]. split; [exact Hcb|].
  split; [reflexivity|]. split; [reflexivity|]. split; [exact Hok|].
  apply (proj1 (plain_body_follows_status qs_stringify_model
                  StringToNumber_digits
                  (local_client (respond empty_errors_response)) posts_call
                  "https://local.test/v1/posts" empty_errors_response
                  empty_errors_body eq_refl eq_refl Hcb eq_refl eq_refl)).
  exact Hok.
Defined.

Lemma failing_callback_stops_call_witness :
  resolve_url qs_stringify_model (local_client (respond not_found_response))
    failing_observe_call
  = ret "https://local.test/v1/posts"
  /\ fetcher (local_client (respond not_found_response))
       "https://local.test/v1/posts"
       (mkInit (request_headers (local_client (respond not_found_response)))
          (signal failing_observe_call))
     = inr not_found_response
  /\ intercept failing_observe_call = Some failing_observe
  /\ failing_observe not_found_response = Some out_of_memory
  /\ get qs_stringify_model StringToNumber_digits
       (local_client (respond not_found_response)) failing_observe_call
     = ([EvFetch "https://local.test/v1/posts"
           (mkInit (request_headers (local_client (respond not_found_response)))
              (signal failing_observe_call));
         EvIntercept not_found_response],
        inl (Propagated out_of_memory)).
Proof.
  split; [reflexivity|]. split; [reflexivity|]. split; [reflexivity|].
  split; [reflexivity|].
  apply (failing_callback_stops_call qs_stringify_model StringToNumber_digits
           (local_client (respond not_found_response)) failing_observe_call
           "https://local.test/v1/posts" not_found_response failing_observe
           out_of_memory); reflexivity.
Defined.

Lemma qstr_without_double_escape_witness :
  includes (qs_stringify_model page_one) "%2523" = false
  /\ qstr qs_stringify_model (Some page_one) = "?" ++ qs_stringify_model page_one.
Proof.
  split; [reflexivity|].
  apply (qstr_without_double_escape qs_stringify_model page_one).
  reflexivity.
Defined.

Example page_one_url :
  resolve_url qs_stringify_model (local_client (respond not_found_response))
    (mkFetchOptions None (Some "posts") None (Some page_one) None None None)
  = ret "https://local.test/v1/posts?page[size]=1".
Proof. reflexivity. Qed.

Lemma path_prefix_is_not_a_segment_witness :
  path v10_call
  = Some ("/" ++ apiVersion (local_client (respond not_found_response))
          ++ "0/posts")
  /\ resolve_url qs_stringify_model (local_client (respond not_found_response))
       v10_call
     = ret (domain (local_client (respond not_found_response)) ++ "/"
            ++ apiVersion (local_client (respond not_found_response))
            ++ "0/posts").
Proof.
  split; [reflexivity|].
  apply (path_prefix_is_not_a_segment qs_stringify_model
           (local_client (respond not_found_response)) v10_call "0/posts").
  reflexivity.
Defined.

Lemma absolute_url_is_rejected_witness :
  path absolute_next_call
  = Some (String "h" "ttps://local.test/v1/posts?page[number]=2")
  /\ "h"%char <> "/"%char
  /\ get qs_stringify_model StringToNumber_digits
       (local_client (respond not_found_response)) absolute_next_call
     = ([], inl (PlainError
                   "[BTF-API] Invalid path : must starts with '/v1', got 'https://local.test/v1/posts?page[number]=2'")).
Proof.
  split; [reflexivity|]. split; [discriminate|].
  apply (absolute_url_is_rejected qs_stringify_model StringToNumber_digits
           (local_client (respond not_found_response)) absolute_next_call
           "h"%char "ttps://local.test/v1/posts?page[number]=2").
  - reflexivity.
  - discriminate.
Defined.

End Calls.

(* ================================================================== *)
(** * The shape of the media URL, over every number *)

Module MediaUrlShape.
Import Js Utils.

(** The embedding over [Z] is the instance of the one over any number. *)
Lemma getMediaUrl_as_any_number (o : Utils.GetMediaUrlOptions) :
  Utils.getMediaUrl o
  = AnyNumber.getMediaUrl string_of_number (AnyNumber.as_any_number o).
Proof. reflexivity. Qed.

Section Numbers.

Variable Number : Type.
Variable NumberToString : Number -> string.

Local Abbreviation getMediaUrl := (AnyNumber.getMediaUrl NumberToString).
Local Abbreviation spec_media_url := (AnyNumber.spec_media_url NumberToString).

(** What [getMediaUrl] returns when it returns: the string that its last
    statements assemble. *)
Lemma getMediaUrl_returns (o : AnyNumber.GetMediaUrlOptions Number)
    (url : string) :
  getMediaUrl o = Return url ->
  url
  = match AnyNumber.size_text Number NumberToString
            (AnyNumber.definition o) (AnyNumber.width o) with
    | None =>
        AnyNumber.domain o ++ "/v1/"
        ++ NumberToString (AnyNumber.media_id (AnyNumber.media o)) ++ "-"
        ++ format_name (match AnyNumber.format o with
                        | Some f => f | None => Fdefault end)
        ++ "/"
        ++ fingerprint_at (AnyNumber.fingerprints (AnyNumber.media o))
             (match AnyNumber.format o with Some f => f | None => Fdefault end)
        ++ "/"
        ++ (match AnyNumber.slug o with Some s => s | None => "media" end)
        ++ match AnyNumber.ext o with
           | Some e => "." ++ ext_name e | None => "" end
    | Some size =>
        AnyNumber.domain o ++ "/v1/"
        ++ NumberToString (AnyNumber.media_id (AnyNumber.media o)) ++ "-"
        ++ format_name (match AnyNumber.format o with
                        | Some f => f | None => Fdefault end)
        ++ "-" ++ size ++ "/"
        ++ fingerprint_at (AnyNumber.fingerprints (AnyNumber.media o))
             (match AnyNumber.format o with Some f => f | None => Fdefault end)
        ++ "/"
        ++ (match AnyNumber.slug o with Some s => s | None => "media" end)
        ++ match AnyNumber.ext o with
           | Some e => "." ++ ext_name e | None => "" end
    end.
Proof.
  unfold AnyNumber.getMediaUrl, Utils.bind, throw_if.
  destruct (is_playable_ext (AnyNumber.ext o));
    destruct (is_video_or_audio (AnyNumber.media_type (AnyNumber.media o)));
    destruct (is_default_or_source
                match AnyNumber.format o with Some f => f | None => Fdefault end);
    destruct (AnyNumber.definition o) as [d|];
    destruct (String.eqb (AnyNumber.mimetype (AnyNumber.media o)) "image/gif");
    destruct (is_gif_ext (AnyNumber.ext o));
    destruct (MediaFormat_eqb
                match AnyNumber.format o with Some f => f | None => Fdefault end
                Fsource);
    cbn [negb andb orb]; try discriminate;
    destruct (AnyNumber.size_text Number NumberToString _ (AnyNumber.width o));
    intros [= <-]; reflexivity.
Qed.

(** The assembled string is the URL of the specification. *)
Lemma assembled_is_spec_url (o : AnyNumber.GetMediaUrlOptions Number)
    (url : string) :
  getMediaUrl o = Return url -> url = spec_media_url o.
Proof.
  intros H. rewrite (getMediaUrl_returns o url H).
  unfold AnyNumber.spec_media_url, AnyNumber.size_text.
  destruct (AnyNumber.definition o) as [[]|];
    destruct (AnyNumber.width o);
    destruct (AnyNumber.format o) as [[]|];
    destruct (AnyNumber.slug o);
    destruct (AnyNumber.ext o) as [[]|]; reflexivity.
Qed.

(** C1.  Whenever [getMediaUrl] returns, whatever the numbers [media.id]
    and [width] are, the URL is
    [{domain}/v1/{media.id}-{format}[-{size}]/{fingerprint}/{slug}[.{ext}]]
    with [format] defaulting to [default], [slug] to [media], [size] the
    definition if present, else the width if present, else absent, the
    [-{size}] segment and the [.{ext}] suffix omitted when their value is
    absent.  The fingerprint is the entry of the mapping under the chosen
    format and no other: a mapping with the same entry under that format,
    and any other entry elsewhere, gives the same URL. *)
Theorem getMediaUrl_url_shape (o : AnyNumber.GetMediaUrlOptions Number)
    (url : string) :
  getMediaUrl o = Return url ->
  url = spec_media_url o
  /\ forall fps : Fingerprints,
       AnyNumber.spec_fingerprint fps (AnyNumber.format o)
       = AnyNumber.spec_fingerprint
           (AnyNumber.fingerprints (AnyNumber.media o)) (AnyNumber.format o) ->
       getMediaUrl (AnyNumber.with_fingerprints o fps) = Return url.
Proof.
  intros H. split; [now apply assembled_is_spec_url|].
  intros fps Hfps.
  destruct (getMediaUrl (AnyNumber.with_fingerprints o fps)) as [url'|m] eqn:H'.
  - f_equal. rewrite (assembled_is_spec_url _ _ H'), (assembled_is_spec_url _ _ H).
    unfold AnyNumber.spec_media_url.
    cbn [AnyNumber.with_fingerprints AnyNumber.domain AnyNumber.media
         AnyNumber.media_id AnyNumber.fingerprints AnyNumber.format
         AnyNumber.definition AnyNumber.width AnyNumber.slug AnyNumber.ext].
    now rewrite Hfps.
  - exfalso. revert H H'.
    unfold AnyNumber.getMediaUrl, Utils.bind, throw_if.
    cbn [AnyNumber.with_fingerprints AnyNumber.domain AnyNumber.media
         AnyNumber.media_id AnyNumber.media_type AnyNumber.mimetype
         AnyNumber.fingerprints AnyNumber.format
         AnyNumber.definition AnyNumber.width AnyNumber.slug AnyNumber.ext].
    destruct (is_playable_ext (AnyNumber.ext o));
      destruct (is_video_or_audio (AnyNumber.media_type (AnyNumber.media o)));
      destruct (is_default_or_source
                  match AnyNumber.format o with Some f => f | None => Fdefault end);
      destruct (AnyNumber.definition o) as [d|];
      destruct (String.eqb (AnyNumber.mimetype (AnyNumber.media o)) "image/gif");
      destruct (is_gif_ext (AnyNumber.ext o));
      destruct (MediaFormat_eqb
                  match AnyNumber.format o with Some f => f | None => Fdefault end
                  Fsource);
      cbn [negb andb orb]; try discriminate;
      destruct (AnyNumber.size_text Number NumberToString _ (AnyNumber.width o));
      discriminate.
Qed.

End Numbers.

Lemma getMediaUrl_url_shape_witness :
  AnyNumber.getMediaUrl string_of_number
    (AnyNumber.mkOptions "D" AnyNumber.sixImage (Some Fthumb) (Some 300)
       (Some "x") None None)
  = Return "D/v1/123-thumb-300/abc-thumb/x"
  /\ "D/v1/123-thumb-300/abc-thumb/x"
     = AnyNumber.spec_media_url string_of_number
         (AnyNumber.mkOptions "D" AnyNumber.sixImage (Some Fthumb) (Some 300)
            (Some "x") None None)
  /\ forall fps : Fingerprints,
       AnyNumber.spec_fingerprint fps (Some Fthumb)
       = AnyNumber.spec_fingerprint
           (AnyNumber.fingerprints AnyNumber.sixImage) (Some Fthumb) ->
       AnyNumber.getMediaUrl string_of_number
         (AnyNumber.with_fingerprints
            (AnyNumber.mkOptions "D" AnyNumber.sixImage (Some Fthumb) (Some 300)
               (Some "x") None None) fps)
       = Return "D/v1/123-thumb-300/abc-thumb/x".
Proof.
  split; [reflexivity|].
  apply (getMediaUrl_url_shape Z string_of_number
           (AnyNumber.mkOptions "D" AnyNumber.sixImage (Some Fthumb) (Some 300)
              (Some "x") None None)
           "D/v1/123-thumb-300/abc-thumb/x").
  reflexivity.
Defined.

(** Each format embeds its own fingerprint, on an image whose six
    fingerprints differ. *)
Example url_embeds_own_fingerprint :
  map (fun f => AnyNumber.getMediaUrl string_of_number
                  (AnyNumber.mkOptions "D" AnyNumber.sixImage f None None None None))
    [None; Some Fdefault; Some Fsource; Some Fthumb; Some Fsquare; Some Fcover;
     Some Fstories]
  = [Return "D/v1/123-default/abc-default/media";
     Return "D/v1/123-default/abc-default/media";
     Return "D/v1/123-source/abc-source/media";
     Return "D/v1/123-thumb/abc-thumb/media";
     Return "D/v1/123-square/abc-square/media";
     Return "D/v1/123-cover/abc-cover/media";
     Return "D/v1/123-stories/abc-stories/media"].
Proof. reflexivity. Qed.

End MediaUrlShape.
